(** * MRG32K3A engine of rocRAND: a shallow embedding and its properties

    The development follows [library/include/rocrand_mrg32k3a.h].
    Every [unsigned long long] is a [Z] whose wrap-around modulo 2^64 is
    written out with [u64]; every [long long] is a [Z] wrapped with [s64];
    the local arrays of nine words that hold a 3x3 matrix are lists read
    with [nth]; the two arrays of three words of the state are triples. *)

From Stdlib Require Import ZArith List Lia Bool Morphisms Setoid.
Import ListNotations.
Local Open Scope Z_scope.

(** ** Constants ([#define]s of the header) *)

Definition ROCRAND_MRG32K3A_POW32 : Z := 4294967296.
Definition ROCRAND_MRG32K3A_M1 : Z := 4294967087.
Definition ROCRAND_MRG32K3A_M1C : Z := 209.
Definition ROCRAND_MRG32K3A_M2 : Z := 4294944443.
Definition ROCRAND_MRG32K3A_M2C : Z := 22853.
Definition ROCRAND_MRG32K3A_A12 : Z := 1403580.
Definition ROCRAND_MRG32K3A_A13 : Z := 4294967087 - 810728.
Definition ROCRAND_MRG32K3A_A13N : Z := 810728.
Definition ROCRAND_MRG32K3A_A21 : Z := 527612.
Definition ROCRAND_MRG32K3A_A23 : Z := 4294944443 - 1370589.
Definition ROCRAND_MRG32K3A_A23N : Z := 1370589.
Definition ROCRAND_MRG32K3A_DEFAULT_SEED : Z := 0x12345.

Abbreviation POW32 := ROCRAND_MRG32K3A_POW32.
Abbreviation M1 := ROCRAND_MRG32K3A_M1.
Abbreviation M1C := ROCRAND_MRG32K3A_M1C.
Abbreviation M2 := ROCRAND_MRG32K3A_M2.
Abbreviation M2C := ROCRAND_MRG32K3A_M2C.
Abbreviation A12 := ROCRAND_MRG32K3A_A12.
Abbreviation A13 := ROCRAND_MRG32K3A_A13.
Abbreviation A13N := ROCRAND_MRG32K3A_A13N.
Abbreviation A21 := ROCRAND_MRG32K3A_A21.
Abbreviation A23 := ROCRAND_MRG32K3A_A23.
Abbreviation A23N := ROCRAND_MRG32K3A_A23N.
Abbreviation DEFAULT_SEED := ROCRAND_MRG32K3A_DEFAULT_SEED.

(** ** Machine integers *)

(** Result of an [unsigned long long] operation. *)
Definition u64 (x : Z) : Z := x mod 2 ^ 64.

(** Conversion to [unsigned int]. *)
Definition u32 (x : Z) : Z := x mod 2 ^ 32.

(** Conversion to, and arithmetic in, [long long] (two's complement). *)
Definition s64 (x : Z) : Z := (x + 2 ^ 63) mod 2 ^ 64 - 2 ^ 63.

(** ** State *)

(** [unsigned long long g[3]] *)
Definition arr3 : Type := (Z * Z * Z)%type.

Definition idx3 (s : arr3) (j : nat) : Z :=
  let '(s0, s1, s2) := s in
  match j with
  | O => s0
  | S O => s1
  | _ => s2
  end.

(** [struct mrg32k3a_state].  The two cached normal values are kept as
    their bit patterns: the engine stores and copies them and never computes
    with them. *)
Record mrg32k3a_state : Type := mk_state {
  g1 : arr3;
  g2 : arr3;
  boxmuller_float_state : Z;
  boxmuller_double_state : Z;
  boxmuller_float : Z;
  boxmuller_double : Z
}.

(** Assignment to [m_state.g1] and [m_state.g2], the other fields kept. *)
Definition set_g (st : mrg32k3a_state) (v1 v2 : arr3) : mrg32k3a_state :=
  mk_state v1 v2 (boxmuller_float_state st) (boxmuller_double_state st)
           (boxmuller_float st) (boxmuller_double st).

(** ** Fixed-modulus reductions *)

Definition mod_m1 (i : Z) : Z :=
  let p := u64 (Z.land i (POW32 - 1) + u64 (Z.shiftr i 32 * M1C)) in
  if M1 <=? p then u64 (p - M1) else p.

Definition mod_m2 (i : Z) : Z :=
  let p := u64 (Z.land i (POW32 - 1) + u64 (Z.shiftr i 32 * M2C)) in
  let p := u64 (Z.land p (POW32 - 1) + u64 (Z.shiftr p 32 * M2C)) in
  if M2 <=? p then u64 (p - M2) else p.

(** [i] is an [unsigned int], [j] an [unsigned long long]; [hi], [lo],
    [temp1], [temp2] are [long long].  [hi * j] and [lo * j] are computed in
    [unsigned long long] (the signed operand is converted). *)
Definition mod_mul_m1 (i j : Z) : Z :=
  let hi := s64 (i / 131072) in
  let lo := s64 (i - s64 (hi * 131072)) in
  let temp1 := s64 (u64 (mod_m1 (u64 (u64 hi * j)) * 131072)) in
  let temp2 := s64 (mod_m1 (u64 (u64 lo * j))) in
  let lo := s64 (mod_m1 (u64 (s64 (temp1 + temp2)))) in
  let lo := if lo <? 0 then s64 (lo + M1) else lo in
  u64 lo.

Definition mod_mul_m2 (i j : Z) : Z :=
  let hi := s64 (i / 131072) in
  let lo := s64 (i - s64 (hi * 131072)) in
  let temp1 := s64 (u64 (mod_m2 (u64 (u64 hi * j)) * 131072)) in
  let temp2 := s64 (mod_m2 (u64 (u64 lo * j))) in
  let lo := s64 (mod_m2 (u64 (s64 (temp1 + temp2)))) in
  let lo := if lo <? 0 then s64 (lo + M2) else lo in
  u64 lo.

(** ** 3x3 matrices modulo [m]

    A matrix is an array of nine words; entry [(i, j)] is [A[i + 3 * j]]. *)

Definition mod_mat_vec (A : list Z) (s : arr3) (m : Z) : arr3 :=
  let x (i : nat) :=
    fold_left
      (fun xi j => u64 (u64 (nth (i + 3 * j) A 0 * idx3 s j) + xi) mod m)
      [0; 1; 2]%nat 0 in
  (x 0%nat, x 1%nat, x 2%nat).

Definition mod_mat_sq (A : list Z) (m : Z) : list Z :=
  let x (i j : nat) :=
    let a :=
      fold_left
        (fun a k =>
           u64 (a + u64 (nth (i + 3 * k) A 0 * nth (k + 3 * j) A 0) mod m))
        [0; 1; 2]%nat 0 in
    a mod m in
  [ x 0 0; x 1 0; x 2 0;
    x 0 1; x 1 1; x 2 1;
    x 0 2; x 1 2; x 2 2 ]%nat.

(** ** Jump-ahead loop

    The three discard functions run the same loop on their own pair of
    matrices:
<<
      while (e > 0) {
          if (e % 2 == 1) { mod_mat_vec(A1, g1, M1); mod_mat_vec(A2, g2, M2); }
          e = e / 2;
          mod_mat_sq(A1, M1); mod_mat_sq(A2, M2);
      }
>>
    The recursion is on the binary digits of [e]: [e] is odd for [p~1] and
    [1], and [e / 2] is the remaining digits [p] (or [0] after the last
    one).  [jump_loop_unfold] below states the loop equation.

    The count [e] is an [unsigned long long]: the functions below stand for
    the code on counts in [[0, 2^64)], the values the parameter can hold; a
    count that a caller computes (a sum, a negative number) reaches the
    code reduced modulo 2^64, and a statement about such a count carries
    the bound that keeps it in range. *)

Fixpoint jump_pos (e : positive) (A1 A2 : list Z) (v1 v2 : arr3)
  : arr3 * arr3 :=
  match e with
  | xH => (mod_mat_vec A1 v1 M1, mod_mat_vec A2 v2 M2)
  | xO p => jump_pos p (mod_mat_sq A1 M1) (mod_mat_sq A2 M2) v1 v2
  | xI p =>
      jump_pos p (mod_mat_sq A1 M1) (mod_mat_sq A2 M2)
               (mod_mat_vec A1 v1 M1) (mod_mat_vec A2 v2 M2)
  end.

Definition jump_loop (e : Z) (A1 A2 : list Z) (v1 v2 : arr3) : arr3 * arr3 :=
  match e with
  | Zpos p => jump_pos p A1 A2 v1 v2
  | _ => (v1, v2)
  end.

(** The arrays [A1] and [A2] of [discard_state]. *)
Definition A1 : list Z :=
  [ 0;   1;   0;
    0;   0;   1;
    A13; A12; 0 ].

Definition A2 : list Z :=
  [ 0;   1; 0;
    0;   0; 1;
    A23; 0; A21 ].

Definition discard_state (offset : Z) (st : mrg32k3a_state) : mrg32k3a_state :=
  let '(v1, v2) := jump_loop offset A1 A2 (g1 st) (g2 st) in
  set_g st v1 v2.

Definition discard_impl (offset : Z) (st : mrg32k3a_state) : mrg32k3a_state :=
  discard_state offset st.

Definition A1p67 : list Z :=
  [ 82758667;   1871391091; 4127413238;
    3672831523; 69195019;   1871391091;
    3672091415; 3528743235; 69195019 ].

Definition A2p67 : list Z :=
  [ 1511326704; 3759209742; 1610795712;
    4292754251; 1511326704; 3889917532;
    3859662829; 4292754251; 3708466080 ].

Definition discard_subsequence_impl (subsequence : Z) (st : mrg32k3a_state)
  : mrg32k3a_state :=
  let '(v1, v2) := jump_loop subsequence A1p67 A2p67 (g1 st) (g2 st) in
  set_g st v1 v2.

Definition A1p127 : list Z :=
  [ 2427906178; 3580155704; 949770784;
    226153695;  1230515664; 3580155704;
    1988835001; 986791581;  1230515664 ].

Definition A2p127 : list Z :=
  [ 1464411153; 277697599;  1610723613;
    32183930;   1464411153; 1022607788;
    2824425944; 32183930;   2093834863 ].

Definition discard_sequence_impl (sequence : Z) (st : mrg32k3a_state)
  : mrg32k3a_state :=
  let '(v1, v2) := jump_loop sequence A1p127 A2p127 (g1 st) (g2 st) in
  set_g st v1 v2.

Definition discard (offset : Z) (st : mrg32k3a_state) : mrg32k3a_state :=
  discard_impl offset st.

Definition discard_subsequence (subsequence : Z) (st : mrg32k3a_state)
  : mrg32k3a_state :=
  discard_subsequence_impl subsequence st.

Definition discard_sequence (sequence : Z) (st : mrg32k3a_state)
  : mrg32k3a_state :=
  discard_sequence_impl sequence st.

(** ** Restart, seed, next *)

Definition restart (subsequence offset : Z) (st : mrg32k3a_state)
  : mrg32k3a_state :=
  let st := mk_state (g1 st) (g2 st) 0 (boxmuller_double_state st)
                     (boxmuller_float st) (boxmuller_double st) in
  let st := mk_state (g1 st) (g2 st) (boxmuller_float_state st) 0
                     (boxmuller_float st) (boxmuller_double st) in
  let st := discard_subsequence_impl subsequence st in
  discard_impl offset st.

(** The two locals [x] and [y] of [seed]. *)
Definition seed_x (seed_value : Z) : Z :=
  u32 (Z.lxor (u32 seed_value) 0x55555555).

Definition seed_y (seed_value : Z) : Z :=
  u32 (Z.lxor (Z.shiftr seed_value 32) 0xAAAAAAAA).

(** [seed] up to, and without, its final call of [restart]. *)
Definition seed_words (seed_value : Z) (st : mrg32k3a_state) : mrg32k3a_state :=
  let seed_value :=
    if seed_value =? 0 then DEFAULT_SEED else seed_value in
  let x := seed_x seed_value in
  let y := seed_y seed_value in
  set_g st
    (mod_mul_m1 x seed_value, mod_mul_m1 y seed_value, mod_mul_m1 x seed_value)
    (mod_mul_m2 y seed_value, mod_mul_m2 x seed_value, mod_mul_m2 y seed_value).

Definition seed (seed_value subsequence offset : Z) (st : mrg32k3a_state)
  : mrg32k3a_state :=
  restart subsequence offset (seed_words seed_value st).

(** [next] returns the generated value and the new state. *)
Definition next (st : mrg32k3a_state) : Z * mrg32k3a_state :=
  let p := u64 (u64 (A12 * idx3 (g1 st) 1)
                + u64 (A13N * u64 (M1 - idx3 (g1 st) 0))) in
  let p := mod_m1 p in
  let st := set_g st (idx3 (g1 st) 1, idx3 (g1 st) 2, p) (g2 st) in
  let p := u64 (u64 (A21 * idx3 (g2 st) 2)
                + u64 (A23N * u64 (M2 - idx3 (g2 st) 0))) in
  let p := mod_m2 p in
  let st := set_g st (g1 st) (idx3 (g2 st) 1, idx3 (g2 st) 2, p) in
  let p := u64 (idx3 (g1 st) 2 - idx3 (g2 st) 2) in
  let p := if idx3 (g1 st) 2 <=? idx3 (g2 st) 2 then u64 (p + M1) else p in
  (p, st).

(** The state after one call of [next], the value dropped. *)
Definition next_state (st : mrg32k3a_state) : mrg32k3a_state := snd (next st).

(** An engine object before its constructor has run [seed]. *)
Definition blank : mrg32k3a_state := mk_state (0, 0, 0) (0, 0, 0) 0 0 0 0.

(** The constructor [mrg32k3a_engine(seed, subsequence, offset)]. *)
Definition mrg32k3a_engine (seed_value subsequence offset : Z)
  : mrg32k3a_state :=
  seed seed_value subsequence offset blank.


(** ** Bounds of the state words *)

Definition in_bounds3 (v : arr3) (m : Z) : Prop :=
  (0 <= idx3 v 0 < m) /\ (0 <= idx3 v 1 < m) /\ (0 <= idx3 v 2 < m).

Definition state_bounds (st : mrg32k3a_state) : Prop :=
  in_bounds3 (g1 st) M1 /\ in_bounds3 (g2 st) M2.

(** The values that [next] hands to [mod_m1] and [mod_m2]: the component-1
    combination of two words below [M1], and the component-2 combination of
    two words below [M2]. *)
Definition next_intermediate (v : Z) : Prop :=
  (exists a b, 0 <= a < M1 /\ 0 <= b < M1 /\ v = A12 * a + A13N * (M1 - b)) \/
  (exists a b, 0 <= a < M2 /\ 0 <= b < M2 /\ v = A21 * a + A23N * (M2 - b)).

(** The engine built by [mrg32k3a_engine(12345, 0, 0)]. *)
Definition engine_12345 : mrg32k3a_state := mrg32k3a_engine 12345 0 0.

(** The intermediate values that [seed] derives from the seed: its two
    locals [x] and [y]. *)
Definition seed_derived (seed_value : Z) : list Z :=
  [seed_x seed_value; seed_y seed_value].

(** The derivation as the specification words it, for comparison with
    [seed_derived]: four values, the low and the high half of the seed each
    XOR-ed with each of the two masks. *)
Definition seed_derived_spec (seed_value : Z) : list Z :=
  let lo := seed_value mod 2 ^ 32 in
  let hi := seed_value / 2 ^ 32 in
  [Z.lxor lo 0x55555555; Z.lxor lo 0xAAAAAAAA;
   Z.lxor hi 0x55555555; Z.lxor hi 0xAAAAAAAA].

(** The engine built by [mrg32k3a_engine(0xFEDCBA9876543210, 0, 0)]. *)
Definition engine_fedc : mrg32k3a_state :=
  mrg32k3a_engine 0xFEDCBA9876543210 0 0.

(** ** Matrices over the integers modulo [m]

    The products that [mod_mat_vec] and [mod_mat_sq] compute when no 64-bit
    operation wraps, written without machine arithmetic.  Entry [(i, j)] of
    a matrix is at index [i + 3 * j], as in the code. *)

Definition mat_vec (m : Z) (A : list Z) (s : arr3) : arr3 :=
  let x (i : nat) :=
    (nth i A 0 * idx3 s 0 + nth (i + 3) A 0 * idx3 s 1
     + nth (i + 6) A 0 * idx3 s 2) mod m in
  (x 0%nat, x 1%nat, x 2%nat).

Definition mat_mul (m : Z) (A B : list Z) : list Z :=
  let x (i j : nat) :=
    (nth i A 0 * nth (3 * j) B 0 + nth (i + 3) A 0 * nth (1 + 3 * j) B 0
     + nth (i + 6) A 0 * nth (2 + 3 * j) B 0) mod m in
  [ x 0 0; x 1 0; x 2 0;
    x 0 1; x 1 1; x 2 1;
    x 0 2; x 1 2; x 2 2 ]%nat.

Definition mat_sq (m : Z) (A : list Z) : list Z := mat_mul m A A.

(** Every entry fits 32 bits. *)
Definition words32 (A : list Z) : Prop :=
  Forall (fun a => 0 <= a < 2 ^ 32) A.

(** One application of a pair of matrices to the two components. *)
Definition lin_step (B1 B2 : list Z) (st : mrg32k3a_state) : mrg32k3a_state :=
  set_g st (mat_vec M1 B1 (g1 st)) (mat_vec M2 B2 (g2 st)).

(** The recurrences of [next] as matrices in the layout that [mod_mat_vec]
    reads: [g1] becomes [(g1[1], g1[2], A13 * g1[0] + A12 * g1[1])] and [g2]
    becomes [(g2[1], g2[2], A23 * g2[0] + A21 * g2[2])]. *)
Definition next_A1 : list Z :=
  [ 0; 0; A13;
    1; 0; A12;
    0; 1; 0 ].

Definition next_A2 : list Z :=
  [ 0; 0; A23;
    1; 0; 0;
    0; 1; A21 ].

(** [2 ^ k] as a binary positive number. *)
Definition pow2 (k : nat) : positive := Nat.iter k xO xH.

(** ** The remaining entry points of the header *)

(** The default constructor [mrg32k3a_engine()]. *)
Definition mrg32k3a_engine_default : mrg32k3a_state :=
  seed DEFAULT_SEED 0 0 blank.

(** The overload [discard_state()] without argument. *)
Definition discard_state0 (st : mrg32k3a_state) : mrg32k3a_state :=
  discard_state 1 st.

(** [rocrand_init]: the state written through the pointer. *)
Definition rocrand_init (seed_value subsequence offset : Z) : mrg32k3a_state :=
  mrg32k3a_engine seed_value subsequence offset.

(** [rocrand]: the value returned and the state left behind the pointer. *)
Definition rocrand (state : mrg32k3a_state) : Z * mrg32k3a_state :=
  next state.

Definition skipahead (offset : Z) (state : mrg32k3a_state) : mrg32k3a_state :=
  discard offset state.

Definition skipahead_subsequence (subsequence : Z) (state : mrg32k3a_state)
  : mrg32k3a_state :=
  discard_subsequence subsequence state.

Definition skipahead_sequence (sequence : Z) (state : mrg32k3a_state)
  : mrg32k3a_state :=
  discard_sequence sequence state.

(** The states a program can hold that initialises with [rocrand_init],
    with a seed below 2^48 or at a non-zero subsequence or offset, and then
    calls [rocrand] and the three [skipahead] functions in any order. *)
Inductive reachable : mrg32k3a_state -> Prop :=
| reach_init_seed (seed_value subsequence offset : Z) :
    0 <= seed_value < 2 ^ 48 ->
    reachable (rocrand_init seed_value subsequence offset)
| reach_init_jump (seed_value subsequence offset : Z) :
    0 < subsequence \/ 0 < offset ->
    reachable (rocrand_init seed_value subsequence offset)
| reach_rocrand (state : mrg32k3a_state) :
    reachable state -> reachable (snd (rocrand state))
| reach_skipahead (offset : Z) (state : mrg32k3a_state) :
    reachable state -> reachable (skipahead offset state)
| reach_skipahead_subsequence (subsequence : Z) (state : mrg32k3a_state) :
    reachable state -> reachable (skipahead_subsequence subsequence state)
| reach_skipahead_sequence (sequence : Z) (state : mrg32k3a_state) :
    reachable state -> reachable (skipahead_sequence sequence state).

(** All six words of the recurrences are zero. *)
Definition zero_words (st : mrg32k3a_state) : Prop :=
  g1 st = (0, 0, 0) /\ g2 st = (0, 0, 0).

(** [n] applications of the pair of matrices that [discard(1)] applies. *)
Definition steps (n : Z) (st : mrg32k3a_state) : mrg32k3a_state :=
  match n with
  | Zpos p => Pos.iter (lin_step A1 A2) st p
  | _ => st
  end.

(** The six words of the two recurrences. *)
Definition words (st : mrg32k3a_state) : arr3 * arr3 := (g1 st, g2 st).

(** * Tactics *)

(** Unfold the constants of the header and the powers of two. *)
Ltac consts :=
  cbv [ROCRAND_MRG32K3A_POW32 ROCRAND_MRG32K3A_M1 ROCRAND_MRG32K3A_M1C
       ROCRAND_MRG32K3A_M2 ROCRAND_MRG32K3A_M2C ROCRAND_MRG32K3A_A12
       ROCRAND_MRG32K3A_A13 ROCRAND_MRG32K3A_A13N ROCRAND_MRG32K3A_A21
       ROCRAND_MRG32K3A_A23 ROCRAND_MRG32K3A_A23N] in *;
  change (2 ^ 64) with 18446744073709551616 in *;
  change (2 ^ 63) with 9223372036854775808 in *;
  change (2 ^ 32) with 4294967296 in *.

(** Closed goals settled by evaluation. *)
Ltac by_eval :=
  vm_compute; repeat split;
  solve [reflexivity | discriminate | intro; discriminate].

(** Equalities of remainders are proved up to congruence modulo [m]. *)
#[local] Existing Instances eqm_setoid Zplus_eqm Zminus_eqm Zmult_eqm Zopp_eqm.

Ltac mod_ring m :=
  match goal with
  | |- ?x mod m = ?y mod m =>
      change (eqm m x y); rewrite ?(Zmod_eqm m); unfold eqm; f_equal; ring
  end.

(** * Properties *)

(** ** Machine arithmetic *)

Lemma u64_small (x : Z) : 0 <= x < 2 ^ 64 -> u64 x = x.
Proof. intros H. unfold u64. now apply Z.mod_small. Qed.

Lemma s64_small (x : Z) : - 2 ^ 63 <= x < 2 ^ 63 -> s64 x = x.
Proof.
  intros H. unfold s64. rewrite Z.mod_small; consts; lia.
Qed.

Lemma land_low32 (i : Z) : Z.land i (POW32 - 1) = i mod 2 ^ 32.
Proof.
  change (POW32 - 1) with (Z.ones 32). apply Z.land_ones. lia.
Qed.

Lemma shiftr_high32 (i : Z) : Z.shiftr i 32 = i / 2 ^ 32.
Proof. apply Z.shiftr_div_pow2. lia. Qed.

(** Both halves of a non-negative word, with the equation that joins them. *)
Lemma split32 (v : Z) :
  0 <= v ->
  v = 2 ^ 32 * (v / 2 ^ 32) + v mod 2 ^ 32 /\
  0 <= v mod 2 ^ 32 < 2 ^ 32 /\ 0 <= v / 2 ^ 32.
Proof.
  intros Hv. split; [apply Z.div_mod; consts; lia|].
  split; [apply Z.mod_pos_bound; consts; lia|].
  apply Z.div_pos; consts; lia.
Qed.

(** One fold with the complement [c = 2^32 - m] keeps the class modulo [m]. *)
Lemma fold32_bounds (v c : Z) :
  0 <= v < 2 ^ 64 -> 0 <= c < 2 ^ 15 ->
  let p := u64 (Z.land v (POW32 - 1) + u64 (Z.shiftr v 32 * c)) in
  p = v mod 2 ^ 32 + v / 2 ^ 32 * c /\
  v = (2 ^ 32 - c) * (v / 2 ^ 32) + p /\
  0 <= v mod 2 ^ 32 < 2 ^ 32 /\ 0 <= v / 2 ^ 32 < 2 ^ 32.
Proof.
  intros Hv Hc p. subst p.
  rewrite land_low32, shiftr_high32.
  destruct (split32 v) as (E & Hr & Hq); [lia|].
  assert (Hq' : v / 2 ^ 32 < 2 ^ 32).
  { apply Z.div_lt_upper_bound; consts; lia. }
  rewrite (u64_small (v / 2 ^ 32 * c)) by (consts; nia).
  rewrite u64_small by (consts; nia).
  repeat split; try lia.
Qed.

Lemma mod_m1_spec (v : Z) :
  0 <= v < 20550081 * 2 ^ 32 -> mod_m1 v = v mod M1.
Proof.
  intros Hv. unfold mod_m1.
  destruct (fold32_bounds v M1C) as (Ep & Ev & Hr & Hq);
    [consts; lia | consts; lia |].
  set (p := u64 (Z.land v (POW32 - 1) + u64 (Z.shiftr v 32 * M1C))) in *.
  assert (Hq' : v / 2 ^ 32 < 20550081).
  { apply Z.div_lt_upper_bound; consts; lia. }
  destruct (Z.leb_spec M1 p).
  - rewrite u64_small by (consts; lia).
    apply Z.mod_unique with (q := v / 2 ^ 32 + 1); consts; lia.
  - apply Z.mod_unique with (q := v / 2 ^ 32); consts; lia.
Qed.

Lemma mod_m2_spec (v : Z) : 0 <= v < 2 ^ 64 -> mod_m2 v = v mod M2.
Proof.
  intros Hv. unfold mod_m2.
  destruct (fold32_bounds v M2C) as (Ep & Ev & Hr & Hq);
    [consts; lia | consts; lia |].
  set (p := u64 (Z.land v (POW32 - 1) + u64 (Z.shiftr v 32 * M2C))) in *.
  assert (Hp : 0 <= p < 140737488355328) by (consts; lia).
  destruct (fold32_bounds p M2C) as (Ep' & Ev' & Hr' & Hq');
    [consts; lia | consts; lia |].
  set (p' := u64 (Z.land p (POW32 - 1) + u64 (Z.shiftr p 32 * M2C))) in *.
  assert (Hq'' : p / 2 ^ 32 < 32768).
  { apply Z.div_lt_upper_bound; consts; lia. }
  destruct (Z.leb_spec M2 p').
  - rewrite u64_small by (consts; lia).
    apply Z.mod_unique with (q := v / 2 ^ 32 + p / 2 ^ 32 + 1); consts; lia.
  - apply Z.mod_unique with (q := v / 2 ^ 32 + p / 2 ^ 32); consts; lia.
Qed.

(** ** The step [next] on a state within bounds *)

(** The value handed to [mod_m1] by [next] is computed without wrap-around. *)
Lemma next_p1_exact (a b : Z) :
  0 <= a < M1 -> 0 <= b < M1 ->
  u64 (u64 (A12 * b) + u64 (A13N * u64 (M1 - a))) = A12 * b + A13N * (M1 - a)
  /\ 0 <= A12 * b + A13N * (M1 - a) < 20550081 * 2 ^ 32.
Proof.
  intros Ha Hb.
  rewrite (u64_small (M1 - a)) by (consts; lia).
  rewrite (u64_small (A12 * b)) by (consts; lia).
  rewrite (u64_small (A13N * _)) by (consts; lia).
  rewrite u64_small by (consts; lia).
  consts; lia.
Qed.

Lemma next_p2_exact (a b : Z) :
  0 <= a < M2 -> 0 <= b < M2 ->
  u64 (u64 (A21 * b) + u64 (A23N * u64 (M2 - a))) = A21 * b + A23N * (M2 - a)
  /\ 0 <= A21 * b + A23N * (M2 - a) < 20550081 * 2 ^ 32.
Proof.
  intros Ha Hb.
  rewrite (u64_small (M2 - a)) by (consts; lia).
  rewrite (u64_small (A21 * b)) by (consts; lia).
  rewrite (u64_small (A23N * _)) by (consts; lia).
  rewrite u64_small by (consts; lia).
  consts; lia.
Qed.

Lemma M1_pos : 0 < M1.
Proof. reflexivity. Qed.

Lemma M2_pos : 0 < M2.
Proof. reflexivity. Qed.

(** What [next] computes from a state within bounds, without machine
    arithmetic. *)
Lemma next_within_bounds (st : mrg32k3a_state) :
  state_bounds st ->
  let p1 := (A12 * idx3 (g1 st) 1 + A13N * (M1 - idx3 (g1 st) 0)) mod M1 in
  let p2 := (A21 * idx3 (g2 st) 2 + A23N * (M2 - idx3 (g2 st) 0)) mod M2 in
  next st =
    (if p1 <=? p2 then p1 - p2 + M1 else p1 - p2,
     set_g st (idx3 (g1 st) 1, idx3 (g1 st) 2, p1)
              (idx3 (g2 st) 1, idx3 (g2 st) 2, p2)).
Proof.
  destruct st as [[[a0 a1] a2] [[b0 b1] b2] fs ds f d].
  intros H p1 p2. unfold state_bounds, in_bounds3 in H.
  cbn [g1 g2 idx3] in *.
  destruct H as [(Ha0 & Ha1 & Ha2) (Hb0 & Hb1 & Hb2)].
  unfold next; cbn [g1 g2 idx3 set_g boxmuller_float_state
    boxmuller_double_state boxmuller_float boxmuller_double].
  destruct (next_p1_exact a0 a1 Ha0 Ha1) as [-> B1].
  destruct (next_p2_exact b0 b2 Hb0 Hb2) as [-> B2].
  rewrite (mod_m1_spec _ B1).
  rewrite mod_m2_spec by (consts; lia).
  fold p1 p2.
  assert (H1 : 0 <= p1 < M1) by (apply Z.mod_pos_bound, M1_pos).
  assert (H2 : 0 <= p2 < M2) by (apply Z.mod_pos_bound, M2_pos).
  f_equal.
  destruct (Z.leb_spec p1 p2).
  - unfold u64 at 1. unfold u64 at 1. rewrite Z.add_mod_idemp_l by (consts; lia).
    apply Z.mod_small. consts; lia.
  - apply u64_small. consts; lia.
Qed.

Lemma next_intermediate_range (v : Z) :
  next_intermediate v -> 0 <= v < 20550081 * 2 ^ 32.
Proof.
  intros [(a & b & Ha & Hb & ->) | (a & b & Ha & Hb & ->)]; consts; lia.
Qed.

(** C7: on every value that [next] reduces (the component-1 or the
    component-2 combination of two words below their modulus), [mod_m1]
    with its single fold and [mod_m2] with its double fold return the true
    remainders modulo [M1] and [M2]. *)
Theorem mod_m1_mod_m2_true_remainders (v : Z) :
  next_intermediate v -> mod_m1 v = v mod M1 /\ mod_m2 v = v mod M2.
Proof.
  intros H. apply next_intermediate_range in H. split.
  - now apply mod_m1_spec.
  - apply mod_m2_spec. consts; lia.
Qed.

Lemma mod_m1_mod_m2_true_remainders_witness :
  next_intermediate (A12 * 51704975 + A13N * (M1 - 1711840)) /\
  (mod_m1 (A12 * 51704975 + A13N * (M1 - 1711840))
   = (A12 * 51704975 + A13N * (M1 - 1711840)) mod M1 /\
   mod_m2 (A12 * 51704975 + A13N * (M1 - 1711840))
   = (A12 * 51704975 + A13N * (M1 - 1711840)) mod M2).
Proof.
  assert (H : next_intermediate (A12 * 51704975 + A13N * (M1 - 1711840))).
  { left. exists 51704975, 1711840. vm_compute. intuition discriminate. }
  split; [exact H|].
  exact (mod_m1_mod_m2_true_remainders _ H).
Defined.

(** C2: from a state within bounds, [next] returns a value in [(0, M1]]. *)
Theorem next_output_range (st : mrg32k3a_state) :
  state_bounds st -> 0 < fst (next st) <= M1.
Proof.
  intros H. rewrite (next_within_bounds st H). cbn [fst].
  set (p1 := _ mod M1). set (p2 := _ mod M2).
  assert (H1 : 0 <= p1 < M1) by (apply Z.mod_pos_bound, M1_pos).
  assert (H2 : 0 <= p2 < M2) by (apply Z.mod_pos_bound, M2_pos).
  destruct (Z.leb_spec p1 p2); consts; lia.
Qed.

Lemma next_preserves_bounds (st : mrg32k3a_state) :
  state_bounds st -> state_bounds (snd (next st)).
Proof.
  intros H. rewrite (next_within_bounds st H). cbn [snd].
  destruct st as [[[a0 a1] a2] [[b0 b1] b2] fs ds f d].
  unfold state_bounds, in_bounds3 in *. cbn [g1 g2 idx3 set_g] in *.
  destruct H as [(Ha0 & Ha1 & Ha2) (Hb0 & Hb1 & Hb2)].
  repeat split; try lia; apply Z.mod_pos_bound; reflexivity.
Qed.

Lemma engine_12345_bounds : state_bounds engine_12345.
Proof. by_eval. Defined.

Lemma next_output_range_witness :
  state_bounds engine_12345 /\ 0 < fst (next engine_12345) <= M1.
Proof.
  split; [exact engine_12345_bounds|].
  exact (next_output_range engine_12345 engine_12345_bounds).
Defined.

(** ** The jump-ahead loop *)

(** The loop equation of [while (e > 0) { ... }]. *)
Lemma jump_loop_unfold (e : Z) (A1 A2 : list Z) (v1 v2 : arr3) :
  jump_loop e A1 A2 v1 v2 =
  if 0 <? e then
    let '(w1, w2) :=
      if e mod 2 =? 1
      then (mod_mat_vec A1 v1 M1, mod_mat_vec A2 v2 M2)
      else (v1, v2) in
    jump_loop (e / 2) (mod_mat_sq A1 M1) (mod_mat_sq A2 M2) w1 w2
  else (v1, v2).
Proof.
  destruct e as [|p|p]; try reflexivity.
  change (0 <? Z.pos p) with true. cbv iota.
  destruct p as [p|p|].
  - assert (E : Z.pos p~1 mod 2 = 1 /\ Z.pos p~1 / 2 = Z.pos p).
    { rewrite Pos2Z.inj_xI. split; Z.div_mod_to_equations; lia. }
    destruct E as [-> ->]. reflexivity.
  - assert (E : Z.pos p~0 mod 2 = 0 /\ Z.pos p~0 / 2 = Z.pos p).
    { rewrite Pos2Z.inj_xO. split; Z.div_mod_to_equations; lia. }
    destruct E as [-> ->]. reflexivity.
  - reflexivity.
Qed.

Lemma mod_mat_vec_bounds (A : list Z) (s : arr3) (m : Z) :
  0 < m -> in_bounds3 (mod_mat_vec A s m) m.
Proof.
  intros Hm. unfold in_bounds3, mod_mat_vec. cbn [idx3 fold_left].
  repeat split; apply Z.mod_pos_bound; exact Hm.
Qed.

(** A jump by a positive count ends with a [mod_mat_vec] on each component,
    whatever the words were before. *)
Lemma jump_pos_bounds (p : positive) (A1 A2 : list Z) (v1 v2 : arr3) :
  in_bounds3 (fst (jump_pos p A1 A2 v1 v2)) M1 /\
  in_bounds3 (snd (jump_pos p A1 A2 v1 v2)) M2.
Proof.
  revert A1 A2 v1 v2.
  induction p as [p IH|p IH|]; intros A1 A2 v1 v2; cbn [jump_pos].
  - apply IH.
  - apply IH.
  - cbn [fst snd]. split; apply mod_mat_vec_bounds; reflexivity.
Qed.

Lemma jump_loop_bounds (e : Z) (A1 A2 : list Z) (v1 v2 : arr3) :
  in_bounds3 v1 M1 -> in_bounds3 v2 M2 ->
  in_bounds3 (fst (jump_loop e A1 A2 v1 v2)) M1 /\
  in_bounds3 (snd (jump_loop e A1 A2 v1 v2)) M2.
Proof.
  intros H1 H2. destruct e as [|p|p]; cbn [jump_loop fst snd]; auto.
  apply jump_pos_bounds.
Qed.

Lemma discard_preserves_bounds (n : Z) (st : mrg32k3a_state) :
  state_bounds st -> state_bounds (discard n st).
Proof.
  intros [H1 H2]. unfold discard, discard_impl, discard_state.
  match goal with |- context [jump_loop ?e ?A ?B ?v ?w] =>
    pose proof (jump_loop_bounds e A B v w H1 H2) as H;
    destruct (jump_loop e A B v w) end.
  exact H.
Qed.

Lemma discard_subsequence_preserves_bounds (n : Z) (st : mrg32k3a_state) :
  state_bounds st -> state_bounds (discard_subsequence n st).
Proof.
  intros [H1 H2]. unfold discard_subsequence, discard_subsequence_impl.
  match goal with |- context [jump_loop ?e ?A ?B ?v ?w] =>
    pose proof (jump_loop_bounds e A B v w H1 H2) as H;
    destruct (jump_loop e A B v w) end.
  exact H.
Qed.

Lemma discard_sequence_preserves_bounds (n : Z) (st : mrg32k3a_state) :
  state_bounds st -> state_bounds (discard_sequence n st).
Proof.
  intros [H1 H2]. unfold discard_sequence, discard_sequence_impl.
  match goal with |- context [jump_loop ?e ?A ?B ?v ?w] =>
    pose proof (jump_loop_bounds e A B v w H1 H2) as H;
    destruct (jump_loop e A B v w) end.
  exact H.
Qed.

Lemma restart_preserves_bounds (sub off : Z) (st : mrg32k3a_state) :
  state_bounds st -> state_bounds (restart sub off st).
Proof.
  intros H. unfold restart.
  apply (discard_preserves_bounds off).
  apply (discard_subsequence_preserves_bounds sub).
  exact H.
Qed.

(** ** Zero jumps, restart and the zero seed *)

(** C6: [discard(0)], [discard_subsequence(0)] and [discard_sequence(0)]
    leave every field of the state as it was. *)
Theorem zero_jump_is_identity (st : mrg32k3a_state) :
  discard 0 st = st /\
  discard_subsequence 0 st = st /\
  discard_sequence 0 st = st.
Proof.
  destruct st as [v1 v2 fs ds f d]. repeat split.
Qed.

(** The jumps write [g1] and [g2] only, and read nothing else. *)
Lemma jump_frame (e : Z) (A1 A2 : list Z) (st : mrg32k3a_state) :
  let st' :=
    let '(v1, v2) := jump_loop e A1 A2 (g1 st) (g2 st) in set_g st v1 v2 in
  boxmuller_float_state st' = boxmuller_float_state st /\
  boxmuller_double_state st' = boxmuller_double_state st /\
  boxmuller_float st' = boxmuller_float st /\
  boxmuller_double st' = boxmuller_double st /\
  (g1 st', g2 st') = jump_loop e A1 A2 (g1 st) (g2 st).
Proof.
  cbv zeta. destruct (jump_loop e A1 A2 (g1 st) (g2 st)) as [v1 v2].
  repeat split.
Qed.

Lemma discard_cache (n : Z) (st : mrg32k3a_state) :
  boxmuller_float_state (discard n st) = boxmuller_float_state st /\
  boxmuller_double_state (discard n st) = boxmuller_double_state st /\
  boxmuller_float (discard n st) = boxmuller_float st /\
  boxmuller_double (discard n st) = boxmuller_double st.
Proof.
  unfold discard, discard_impl, discard_state.
  match goal with |- context [jump_loop ?e ?A ?B _ _] =>
    pose proof (jump_frame e A B st) as H end.
  cbv zeta in H. tauto.
Qed.

Lemma discard_subsequence_cache (n : Z) (st : mrg32k3a_state) :
  boxmuller_float_state (discard_subsequence n st) = boxmuller_float_state st /\
  boxmuller_double_state (discard_subsequence n st)
  = boxmuller_double_state st /\
  boxmuller_float (discard_subsequence n st) = boxmuller_float st /\
  boxmuller_double (discard_subsequence n st) = boxmuller_double st.
Proof.
  unfold discard_subsequence, discard_subsequence_impl.
  pose proof (jump_frame n A1p67 A2p67 st) as H.
  cbv zeta in H. tauto.
Qed.

(** C4: [restart] sets both Box-Muller flags to 0 whatever they were, then
    runs [discard_subsequence(subsequence)] and after it [discard(offset)];
    the flags are still 0 when it returns, and [seed], which ends with
    [restart], returns with both flags 0 as well. *)
Theorem restart_clears_flags_then_jumps
  (subsequence offset : Z) (st : mrg32k3a_state) :
  restart subsequence offset st =
    discard offset
      (discard_subsequence subsequence
         (mk_state (g1 st) (g2 st) 0 0
                   (boxmuller_float st) (boxmuller_double st))) /\
  boxmuller_float_state (restart subsequence offset st) = 0 /\
  boxmuller_double_state (restart subsequence offset st) = 0 /\
  (forall seed_value,
     seed seed_value subsequence offset st =
       restart subsequence offset (seed_words seed_value st) /\
     boxmuller_float_state (seed seed_value subsequence offset st) = 0 /\
     boxmuller_double_state (seed seed_value subsequence offset st) = 0).
Proof.
  assert (F : forall s,
            boxmuller_float_state (restart subsequence offset s) = 0 /\
            boxmuller_double_state (restart subsequence offset s) = 0).
  { intros s. unfold restart. cbn [g1 g2 boxmuller_float_state
      boxmuller_double_state boxmuller_float boxmuller_double].
    fold (discard_subsequence subsequence
            (mk_state (g1 s) (g2 s) 0 0
                      (boxmuller_float s) (boxmuller_double s))).
    match goal with |- context [discard_impl offset ?t] =>
      fold (discard offset t);
      destruct (discard_cache offset t) as (-> & -> & _)
    end.
    match goal with |- context [discard_subsequence subsequence ?t] =>
      destruct (discard_subsequence_cache subsequence t) as (-> & -> & _)
    end.
    split; reflexivity. }
  split; [reflexivity|].
  split; [apply F|]. split; [apply F|].
  intros seed_value. split; [reflexivity|]. apply F.
Qed.

(** C5: a zero seed is replaced by [0x12345]; [seed(0, sub, off)] and
    [seed(0x12345, sub, off)] return the same state. *)
Theorem seed_zero_is_default_seed
  (subsequence offset : Z) (st : mrg32k3a_state) :
  seed 0 subsequence offset st = seed 0x12345 subsequence offset st.
Proof.
  unfold seed. f_equal.
Qed.

(** ** Seeding *)

Lemma mod_combine (a b c m : Z) :
  m <> 0 -> (a mod m * c + b mod m) mod m = (a * c + b) mod m.
Proof.
  intros Hm.
  rewrite Z.add_mod_idemp_r by exact Hm.
  rewrite Z.add_mod by exact Hm.
  rewrite Z.mul_mod_idemp_l by exact Hm.
  rewrite <- Z.add_mod by exact Hm.
  reflexivity.
Qed.

(** The split [i = 131072 * hi + lo] made by [mod_mul_m1] and [mod_mul_m2]. *)
Lemma split17 (i : Z) :
  0 <= i < 2 ^ 32 ->
  let hi := s64 (i / 131072) in
  let lo := s64 (i - s64 (hi * 131072)) in
  i = 131072 * hi + lo /\ 0 <= hi < 32768 /\ 0 <= lo < 131072 /\
  u64 hi = hi /\ u64 lo = lo.
Proof.
  intros Hi.
  assert (Hq : 0 <= i / 131072 < 32768).
  { split; [apply Z.div_pos; consts; lia|].
    apply Z.div_lt_upper_bound; consts; lia. }
  pose proof (Z.div_mod i 131072 ltac:(lia)) as E.
  pose proof (Z.mod_pos_bound i 131072 ltac:(lia)) as Hr.
  cbv zeta.
  rewrite (s64_small (i / 131072)) by (consts; lia).
  rewrite (s64_small (i / 131072 * 131072)) by (consts; lia).
  rewrite (s64_small (i - _)) by (consts; lia).
  rewrite !u64_small by (consts; lia).
  repeat split; lia.
Qed.

Lemma mod_mul_m1_spec (i j : Z) :
  0 <= i < 2 ^ 32 -> 0 <= j < 2 ^ 39 -> mod_mul_m1 i j = (i * j) mod M1.
Proof.
  intros Hi Hj. unfold mod_mul_m1.
  destruct (split17 i Hi) as (E & Hhi & Hlo & -> & ->).
  set (hi := s64 (i / 131072)) in *.
  set (lo := s64 (i - s64 (hi * 131072))) in *.
  change (2 ^ 39) with 549755813888 in Hj.
  rewrite (u64_small (hi * j)) by (consts; nia).
  rewrite (u64_small (lo * j)) by (consts; nia).
  rewrite (mod_m1_spec (hi * j)) by (consts; nia).
  rewrite (mod_m1_spec (lo * j)) by (consts; nia).
  pose proof (Z.mod_pos_bound (hi * j) M1 M1_pos) as B1.
  pose proof (Z.mod_pos_bound (lo * j) M1 M1_pos) as B2.
  rewrite (u64_small (_ * 131072)) by (consts; lia).
  rewrite (s64_small (_ * 131072)) by (consts; lia).
  rewrite (s64_small ((lo * j) mod M1)) by (consts; lia).
  rewrite (s64_small (_ + _)) by (consts; lia).
  rewrite (u64_small (_ + _)) by (consts; lia).
  rewrite mod_m1_spec by (consts; lia).
  pose proof (Z.mod_pos_bound ((hi * j) mod M1 * 131072 + (lo * j) mod M1)
                              M1 M1_pos) as B3.
  rewrite s64_small by (consts; lia).
  destruct (Z.ltb_spec (((hi * j) mod M1 * 131072 + (lo * j) mod M1) mod M1) 0);
    [lia|].
  rewrite u64_small by (consts; lia).
  rewrite mod_combine by discriminate.
  f_equal. transitivity ((131072 * hi + lo) * j); [ring|].
  now rewrite <- E.
Qed.

Lemma mod_mul_m2_spec (i j : Z) :
  0 <= i < 2 ^ 32 -> 0 <= j < 2 ^ 47 -> mod_mul_m2 i j = (i * j) mod M2.
Proof.
  intros Hi Hj. unfold mod_mul_m2.
  destruct (split17 i Hi) as (E & Hhi & Hlo & -> & ->).
  set (hi := s64 (i / 131072)) in *.
  set (lo := s64 (i - s64 (hi * 131072))) in *.
  change (2 ^ 47) with 140737488355328 in Hj.
  rewrite (u64_small (hi * j)) by (consts; nia).
  rewrite (u64_small (lo * j)) by (consts; nia).
  rewrite (mod_m2_spec (hi * j)) by (consts; nia).
  rewrite (mod_m2_spec (lo * j)) by (consts; nia).
  pose proof (Z.mod_pos_bound (hi * j) M2 M2_pos) as B1.
  pose proof (Z.mod_pos_bound (lo * j) M2 M2_pos) as B2.
  rewrite (u64_small (_ * 131072)) by (consts; lia).
  rewrite (s64_small (_ * 131072)) by (consts; lia).
  rewrite (s64_small ((lo * j) mod M2)) by (consts; lia).
  rewrite (s64_small (_ + _)) by (consts; lia).
  rewrite (u64_small (_ + _)) by (consts; lia).
  rewrite mod_m2_spec by (consts; lia).
  pose proof (Z.mod_pos_bound ((hi * j) mod M2 * 131072 + (lo * j) mod M2)
                              M2 M2_pos) as B3.
  rewrite s64_small by (consts; lia).
  destruct (Z.ltb_spec (((hi * j) mod M2 * 131072 + (lo * j) mod M2) mod M2) 0);
    [lia|].
  rewrite u64_small by (consts; lia).
  rewrite mod_combine by discriminate.
  f_equal. transitivity ((131072 * hi + lo) * j); [ring|].
  now rewrite <- E.
Qed.

Lemma lxor_32 (a b : Z) :
  0 <= a < 2 ^ 32 -> 0 <= b < 2 ^ 32 -> 0 <= Z.lxor a b < 2 ^ 32.
Proof.
  intros Ha Hb.
  assert (H0 : 0 <= Z.lxor a b) by (apply Z.lxor_nonneg; lia).
  split; [exact H0|].
  destruct (Z.eq_dec (Z.lxor a b) 0) as [->|Hne]; [reflexivity|].
  apply Z.log2_lt_pow2; [lia|].
  pose proof (Z.log2_lxor a b ltac:(lia) ltac:(lia)) as Hl.
  assert (La : Z.log2 a < 32).
  { destruct (Z.eq_dec a 0) as [->|]; [reflexivity|].
    apply Z.log2_lt_pow2; lia. }
  assert (Lb : Z.log2 b < 32).
  { destruct (Z.eq_dec b 0) as [->|]; [reflexivity|].
    apply Z.log2_lt_pow2; lia. }
  lia.
Qed.

Lemma seed_x_low_half (seed_value : Z) :
  seed_x seed_value = Z.lxor (seed_value mod 2 ^ 32) 0x55555555 /\
  0 <= seed_x seed_value < 2 ^ 32.
Proof.
  assert (H : 0 <= Z.lxor (seed_value mod 2 ^ 32) 0x55555555 < 2 ^ 32).
  { apply lxor_32; [apply Z.mod_pos_bound; reflexivity | by_eval]. }
  unfold seed_x, u32 at 1. fold (u32 seed_value).
  unfold u32. rewrite Z.mod_small by exact H. split; [reflexivity | exact H].
Qed.

Lemma seed_y_high_half (seed_value : Z) :
  0 <= seed_value < 2 ^ 64 ->
  seed_y seed_value = Z.lxor (seed_value / 2 ^ 32) 0xAAAAAAAA /\
  0 <= seed_y seed_value < 2 ^ 32.
Proof.
  intros Hs.
  assert (Hq : 0 <= seed_value / 2 ^ 32 < 2 ^ 32).
  { split; [apply Z.div_pos; consts; lia|].
    apply Z.div_lt_upper_bound; consts; lia. }
  assert (H : 0 <= Z.lxor (seed_value / 2 ^ 32) 0xAAAAAAAA < 2 ^ 32).
  { apply lxor_32; [exact Hq | by_eval]. }
  unfold seed_y, u32. rewrite shiftr_high32.
  rewrite Z.mod_small by exact H. split; [reflexivity | exact H].
Qed.

(** C9, amended: for a non-zero 64-bit seed, [seed] derives two 32-bit
    values, [x] from the low half of the seed XOR-ed with [0x55555555] and
    [y] from the high half XOR-ed with [0xAAAAAAAA], and before [restart] the
    state words are [g1 = (x*s, y*s, x*s)] by [mod_mul_m1] and
    [g2 = (y*s, x*s, y*s)] by [mod_mul_m2], with [s] the raw seed. *)
Theorem seed_words_derivation (seed_value : Z) (st : mrg32k3a_state) :
  0 <= seed_value < 2 ^ 64 -> seed_value <> 0 ->
  let x := Z.lxor (seed_value mod 2 ^ 32) 0x55555555 in
  let y := Z.lxor (seed_value / 2 ^ 32) 0xAAAAAAAA in
  seed_derived seed_value = [x; y] /\
  0 <= x < 2 ^ 32 /\ 0 <= y < 2 ^ 32 /\
  g1 (seed_words seed_value st) =
    (mod_mul_m1 x seed_value, mod_mul_m1 y seed_value,
     mod_mul_m1 x seed_value) /\
  g2 (seed_words seed_value st) =
    (mod_mul_m2 y seed_value, mod_mul_m2 x seed_value,
     mod_mul_m2 y seed_value) /\
  (forall subsequence offset,
     seed seed_value subsequence offset st =
       restart subsequence offset (seed_words seed_value st)).
Proof.
  intros Hs Hnz x y.
  destruct (seed_x_low_half seed_value) as [Ex Hx].
  destruct (seed_y_high_half seed_value Hs) as [Ey Hy].
  fold x in Ex. fold y in Ey.
  assert (Hz : (seed_value =? 0) = false) by (apply Z.eqb_neq; exact Hnz).
  rewrite Ex in Hx. rewrite Ey in Hy.
  split; [unfold seed_derived; now rewrite Ex, Ey|].
  split; [exact Hx|]. split; [exact Hy|].
  unfold seed, seed_words. rewrite Hz, Ex, Ey. cbn [g1 g2 set_g].
  repeat split.
Qed.

Lemma seed_words_derivation_witness :
  0 <= 12345 < 2 ^ 64 /\ 12345 <> 0 /\
  seed_derived 12345 =
    [Z.lxor (12345 mod 2 ^ 32) 0x55555555; Z.lxor (12345 / 2 ^ 32) 0xAAAAAAAA]
  /\
  g1 (seed_words 12345 blank) =
    (mod_mul_m1 (Z.lxor (12345 mod 2 ^ 32) 0x55555555) 12345,
     mod_mul_m1 (Z.lxor (12345 / 2 ^ 32) 0xAAAAAAAA) 12345,
     mod_mul_m1 (Z.lxor (12345 mod 2 ^ 32) 0x55555555) 12345).
Proof.
  assert (Hs : 0 <= 12345 < 2 ^ 64) by by_eval.
  assert (Hnz : 12345 <> 0) by discriminate.
  pose proof (seed_words_derivation 12345 blank Hs Hnz) as H.
  cbv zeta in H. destruct H as (E & _ & _ & G1 & _).
  split; [exact Hs|]. split; [exact Hnz|]. split; [exact E | exact G1].
Defined.

(** C9 as stated fails: the specification counts four derived values, each
    half of the seed XOR-ed with each mask.  For the seed 12345 these four
    are distinct, the code derives two of them only, and the other two take
    no part in any of the six state words. *)
Lemma seed_derives_two_values_not_four :
  seed_derived 12345 <> seed_derived_spec 12345 /\
  length (seed_derived 12345) = 2%nat /\
  NoDup (seed_derived_spec 12345) /\
  (forall d, In d [nth 1 (seed_derived_spec 12345) 0;
                   nth 2 (seed_derived_spec 12345) 0] ->
     ~ In d (seed_derived 12345) /\
     ~ In (mod_mul_m1 d 12345)
          [idx3 (g1 (seed_words 12345 blank)) 0;
           idx3 (g1 (seed_words 12345 blank)) 1;
           idx3 (g1 (seed_words 12345 blank)) 2] /\
     ~ In (mod_mul_m2 d 12345)
          [idx3 (g2 (seed_words 12345 blank)) 0;
           idx3 (g2 (seed_words 12345 blank)) 1;
           idx3 (g2 (seed_words 12345 blank)) 2]).
Proof.
  split; [vm_compute; discriminate|].
  split; [reflexivity|].
  split.
  - vm_compute. repeat constructor; cbn [In]; intuition discriminate.
  - intros d Hd. cbn [In] in Hd.
    destruct Hd as [<-|[<-|[]]]; vm_compute; intuition discriminate.
Qed.

(** A seed below 2^39 gives a state within bounds. *)
Lemma seed_small_bounds (seed_value sub off : Z) (st : mrg32k3a_state) :
  0 <= seed_value < 2 ^ 39 -> state_bounds (seed seed_value sub off st).
Proof.
  intros Hs. unfold seed. apply restart_preserves_bounds.
  unfold seed_words.
  set (s := if seed_value =? 0 then DEFAULT_SEED else seed_value).
  assert (H39 : 0 <= s < 2 ^ 39).
  { subst s. destruct (seed_value =? 0); [by_eval | exact Hs]. }
  assert (H47 : 0 <= s < 2 ^ 47).
  { change (2 ^ 39) with 549755813888 in H39.
    change (2 ^ 47) with 140737488355328. lia. }
  assert (H64 : 0 <= s < 2 ^ 64).
  { change (2 ^ 39) with 549755813888 in H39. consts. lia. }
  destruct (seed_x_low_half s) as [_ Hx].
  destruct (seed_y_high_half s H64) as [_ Hy].
  unfold state_bounds, in_bounds3. cbn [g1 g2 set_g idx3].
  rewrite !mod_mul_m1_spec, !mod_mul_m2_spec by assumption.
  repeat split; apply Z.mod_pos_bound; reflexivity.
Qed.

(** C3 at the seed [0xFEDCBA9876543210]: [seed(0xFEDCBA9876543210, 0, 0)]
    leaves [g1[1] = 5259909760], which is not below [M1], and the second
    call of [next] on that engine returns 894201739690, outside [(0, M1]]. *)
Theorem seed_fedc_breaks_bounds :
  0 <= 0xFEDCBA9876543210 < 2 ^ 64 /\
  g1 engine_fedc = (264362659, 5259909760, 264362659) /\
  g2 engine_fedc = (2962081722, 2484872990, 2962081722) /\
  M1 <= idx3 (g1 engine_fedc) 1 /\
  ~ state_bounds engine_fedc /\
  fst (next (next_state engine_fedc)) = 894201739690 /\
  M1 < fst (next (next_state engine_fedc)).
Proof.
  split; [by_eval|]. do 2 (split; [reflexivity|]). split; [by_eval|].
  split.
  - intros [(_ & [_ H] & _) _]. revert H. by_eval.
  - split; [reflexivity | by_eval].
Qed.

(** ** Jumps as powers of a matrix *)

Lemma nth_words32 (A : list Z) (k : nat) :
  words32 A -> 0 <= nth k A 0 < 2 ^ 32.
Proof.
  intros H. destruct (nth_in_or_default k A 0) as [Hin | ->].
  - unfold words32 in H. rewrite Forall_forall in H. now apply H.
  - by_eval.
Qed.

Lemma in_bounds3_words32 (v : arr3) (m : Z) :
  m <= 2 ^ 32 -> in_bounds3 v m -> in_bounds3 v (2 ^ 32).
Proof. unfold in_bounds3. intros Hm (H0 & H1 & H2). repeat split; lia. Qed.

Section MatricesModulo.

Variable m : Z.
Hypothesis Hm : 0 < m <= 2 ^ 32.

Lemma reduced_word (z : Z) : 0 <= z mod m < 2 ^ 32.
Proof. pose proof (Z.mod_pos_bound z m ltac:(lia)). lia. Qed.

Lemma mat_vec_bounds (A : list Z) (s : arr3) : in_bounds3 (mat_vec m A s) m.
Proof.
  unfold in_bounds3, mat_vec. cbn [idx3].
  repeat split; apply Z.mod_pos_bound; lia.
Qed.

(** With entries and words of 32 bits no operation of [mod_mat_vec] wraps. *)
Lemma mod_mat_vec_exact (A : list Z) (s : arr3) :
  words32 A -> in_bounds3 s (2 ^ 32) -> mod_mat_vec A s m = mat_vec m A s.
Proof.
  intros HA Hs. destruct s as [[s0 s1] s2].
  unfold in_bounds3 in Hs. cbn [idx3] in Hs. destruct Hs as (H0 & H1 & H2).
  assert (step : forall k sj xi,
            0 <= sj < 2 ^ 32 -> 0 <= xi < 2 ^ 32 ->
            u64 (u64 (nth k A 0 * sj) + xi) = nth k A 0 * sj + xi).
  { intros k sj xi Hsj Hxi. pose proof (nth_words32 A k HA) as Hk.
    rewrite (u64_small (_ * _)) by (consts; nia).
    apply u64_small. consts; nia. }
  unfold mod_mat_vec, mat_vec. cbn [fold_left idx3 Nat.add Nat.mul].
  rewrite !step by (try apply reduced_word; try assumption; by_eval).
  f_equal; [f_equal|]; mod_ring m.
Qed.

Lemma mod_mat_sq_entry (a0 b0 a1 b1 a2 b2 : Z) :
  0 <= a0 < 2 ^ 32 -> 0 <= b0 < 2 ^ 32 ->
  0 <= a1 < 2 ^ 32 -> 0 <= b1 < 2 ^ 32 ->
  0 <= a2 < 2 ^ 32 -> 0 <= b2 < 2 ^ 32 ->
  u64 (u64 (u64 (0 + u64 (a0 * b0) mod m) + u64 (a1 * b1) mod m)
       + u64 (a2 * b2) mod m) mod m
  = (a0 * b0 + a1 * b1 + a2 * b2) mod m.
Proof.
  intros Ha0 Hb0 Ha1 Hb1 Ha2 Hb2.
  rewrite (u64_small (a0 * b0)) by (consts; nia).
  rewrite (u64_small (a1 * b1)) by (consts; nia).
  rewrite (u64_small (a2 * b2)) by (consts; nia).
  pose proof (reduced_word (a0 * b0)) as R0.
  pose proof (reduced_word (a1 * b1)) as R1.
  pose proof (reduced_word (a2 * b2)) as R2.
  rewrite (u64_small (0 + _)) by (consts; lia).
  rewrite (u64_small (0 + _ + _)) by (consts; lia).
  rewrite (u64_small (0 + _ + _ + _)) by (consts; lia).
  mod_ring m.
Qed.

(** With entries of 32 bits no operation of [mod_mat_sq] wraps. *)
Lemma mod_mat_sq_exact (A : list Z) :
  words32 A -> mod_mat_sq A m = mat_sq m A.
Proof.
  intros HA. unfold mod_mat_sq, mat_sq, mat_mul.
  cbn [fold_left Nat.add Nat.mul].
  rewrite !mod_mat_sq_entry by (apply nth_words32; assumption).
  reflexivity.
Qed.

Lemma mat_mul_words32 (A B : list Z) : words32 (mat_mul m A B).
Proof. unfold words32, mat_mul. repeat constructor; apply reduced_word. Qed.

(** The product of matrices acts as the composition of their actions. *)
Lemma mat_vec_mul (A B : list Z) (s : arr3) :
  mat_vec m (mat_mul m A B) s = mat_vec m A (mat_vec m B s).
Proof.
  destruct s as [[s0 s1] s2]. unfold mat_vec, mat_mul.
  cbn [nth idx3 Nat.add Nat.mul].
  f_equal; [f_equal|]; mod_ring m.
Qed.

Lemma mat_sq_iter_words32 (k : nat) (A : list Z) :
  words32 A -> words32 (Nat.iter k (mat_sq m) A).
Proof.
  intros HA. destruct k as [|k]; [exact HA|].
  cbn [Nat.iter nat_rect]. apply mat_mul_words32.
Qed.

(** Squaring [k] times with the code's [mod_mat_sq] is squaring [k] times
    in the integers modulo [m]. *)
Lemma mod_mat_sq_iter (k : nat) (A : list Z) :
  words32 A ->
  Nat.iter k (fun X => mod_mat_sq X m) A = Nat.iter k (mat_sq m) A.
Proof.
  intros HA. induction k as [|k IH]; [reflexivity|].
  cbn [Nat.iter nat_rect]. fold (Nat.iter k (fun X => mod_mat_sq X m) A).
  fold (Nat.iter k (mat_sq m) A). rewrite IH.
  apply mod_mat_sq_exact. now apply mat_sq_iter_words32.
Qed.

End MatricesModulo.

Lemma M1_word : 0 < M1 <= 2 ^ 32.
Proof. by_eval. Qed.

Lemma M2_word : 0 < M2 <= 2 ^ 32.
Proof. by_eval. Qed.

(** ** Iterated steps *)

Section Iteration.

Context {X : Type}.
Variable f : X -> X.

(** Two step functions that agree on an invariant set iterate alike. *)
Lemma Pos_iter_agree (Inv : X -> Prop) (g : X -> X) :
  (forall x, Inv x -> f x = g x) ->
  (forall x, Inv x -> Inv (f x)) ->
  forall p x, Inv x -> Pos.iter f x p = Pos.iter g x p /\ Inv (Pos.iter f x p).
Proof.
  intros Hfg Hinv. induction p as [p IH|p IH|]; intros x Hx; cbn [Pos.iter].
  - destruct (IH x Hx) as [E1 I1]. destruct (IH _ I1) as [E2 I2].
    rewrite <- E1, <- E2. split; [apply Hfg, I2 | apply Hinv, I2].
  - destruct (IH x Hx) as [E1 I1]. destruct (IH _ I1) as [E2 I2].
    rewrite <- E1, <- E2. split; [reflexivity | exact I2].
  - split; [apply Hfg, Hx | apply Hinv, Hx].
Qed.

Lemma Pos_iter_ext (g : X -> X) :
  (forall x, f x = g x) -> forall p x, Pos.iter f x p = Pos.iter g x p.
Proof.
  intros Hfg p x.
  apply (Pos_iter_agree (fun _ => True) g); auto.
Qed.

(** [p] double steps are [2 * p] steps. *)
Lemma Pos_iter_twice (p : positive) (x : X) :
  Pos.iter (fun y => f (f y)) x p = Pos.iter f x p~0.
Proof.
  induction p as [|p IH] using Pos.peano_ind; [reflexivity|].
  rewrite Pos.iter_succ, IH.
  replace (Pos.succ p)~0%positive with (Pos.succ (Pos.succ p~0)) by lia.
  now rewrite !Pos.iter_succ.
Qed.

End Iteration.

Lemma lin_step_bounds (B1 B2 : list Z) (st : mrg32k3a_state) :
  state_bounds (lin_step B1 B2 st).
Proof.
  split; cbn [lin_step set_g g1 g2]; apply mat_vec_bounds; by_eval.
Qed.

Lemma lin_step_mul (B1 B2 : list Z) (st : mrg32k3a_state) :
  lin_step B1 B2 (lin_step B1 B2 st) = lin_step (mat_sq M1 B1) (mat_sq M2 B2) st.
Proof.
  unfold lin_step, mat_sq. cbn [g1 g2 set_g boxmuller_float_state
    boxmuller_double_state boxmuller_float boxmuller_double].
  now rewrite !mat_vec_mul.
Qed.

(** [2 ^ k] applications of a pair of matrices are one application of the
    matrices squared [k] times. *)
Lemma lin_step_iter_pow2 (k : nat) (B1 B2 : list Z) (st : mrg32k3a_state) :
  Pos.iter (lin_step B1 B2) st (pow2 k) =
  lin_step (Nat.iter k (mat_sq M1) B1) (Nat.iter k (mat_sq M2) B2) st.
Proof.
  revert st. induction k as [|k IH]; intros st; [reflexivity|].
  change (pow2 (S k)) with (xO (pow2 k)). cbn [Pos.iter].
  rewrite !IH. rewrite lin_step_mul. reflexivity.
Qed.

(** On a state within bounds the state change of [next] is the linear map
    of [next_A1] and [next_A2]. *)
Lemma next_state_lin (st : mrg32k3a_state) :
  state_bounds st -> next_state st = lin_step next_A1 next_A2 st.
Proof.
  intros H. unfold next_state. rewrite (next_within_bounds st H). cbn [snd].
  destruct st as [[[a0 a1] a2] [[b0 b1] b2] fs ds f d].
  unfold state_bounds, in_bounds3 in H. cbn [g1 g2 idx3] in H.
  destruct H as [(Ha0 & Ha1 & Ha2) (Hb0 & Hb1 & Hb2)].
  unfold lin_step, mat_vec, set_g, next_A1, next_A2.
  cbn [g1 g2 idx3 nth Nat.add boxmuller_float_state boxmuller_double_state
       boxmuller_float boxmuller_double].
  f_equal; f_equal; [f_equal| |f_equal|].
  - symmetry. rewrite Z.mod_small; consts; lia.
  - symmetry. rewrite Z.mod_small; consts; lia.
  - replace (A12 * a1 + A13N * (M1 - a0))
      with (A13 * a0 + A12 * a1 + 0 * a2 + (A13N - a0) * M1)
      by (consts; ring).
    apply Z_mod_plus_full.
  - symmetry. rewrite Z.mod_small; consts; lia.
  - symmetry. rewrite Z.mod_small; consts; lia.
  - replace (A21 * b2 + A23N * (M2 - b0))
      with (A23 * b0 + 0 * b1 + A21 * b2 + (A23N - b0) * M2)
      by (consts; ring).
    apply Z_mod_plus_full.
Qed.

(** The arrays [A1] and [A2] of [discard_state] hold the matrices of [next]
    written row by row, while [mod_mat_vec] reads entry [(i, j)] at
    [i + 3 * j]: what [discard] applies is their transpose. *)
Lemma discard_arrays_transposed (i j : nat) :
  (i < 3)%nat -> (j < 3)%nat ->
  nth (i + 3 * j) A1 0 = nth (j + 3 * i) next_A1 0 /\
  nth (i + 3 * j) A2 0 = nth (j + 3 * i) next_A2 0.
Proof.
  intros Hi Hj.
  destruct i as [|[|[|i]]]; [| | |lia];
    (destruct j as [|[|[|j]]]; [| | |lia]); split; reflexivity.
Qed.

Lemma A1_words32 : words32 A1 /\ words32 A2.
Proof. split; repeat constructor; by_eval. Qed.

Lemma A1p67_words32 : words32 A1p67 /\ words32 A2p67.
Proof. split; repeat constructor; by_eval. Qed.

(** The loop is square-and-multiply: with matrices of 32-bit entries and a
    state within bounds, a jump by [p] is [p] applications of the pair of
    matrices. *)
Lemma jump_pos_iter (p : positive) (B1 B2 : list Z) (st : mrg32k3a_state) :
  words32 B1 -> words32 B2 -> state_bounds st ->
  (let '(v1, v2) := jump_pos p B1 B2 (g1 st) (g2 st) in set_g st v1 v2)
  = Pos.iter (lin_step B1 B2) st p.
Proof.
  revert B1 B2 st.
  assert (one : forall B1 B2 st, words32 B1 -> words32 B2 -> state_bounds st ->
            mod_mat_vec B1 (g1 st) M1 = g1 (lin_step B1 B2 st) /\
            mod_mat_vec B2 (g2 st) M2 = g2 (lin_step B1 B2 st)).
  { intros B1 B2 st W1 W2 [H1 H2]. cbn [lin_step set_g g1 g2].
    split; apply mod_mat_vec_exact;
      solve [ exact M1_word | exact M2_word | assumption
            | apply (in_bounds3_words32 _ M1); [by_eval | exact H1]
            | apply (in_bounds3_words32 _ M2); [by_eval | exact H2] ]. }
  induction p as [p IH|p IH|]; intros B1 B2 st W1 W2 H; cbn [jump_pos].
  - destruct (one B1 B2 st W1 W2 H) as [-> ->].
    rewrite (mod_mat_sq_exact M1 M1_word B1 W1).
    rewrite (mod_mat_sq_exact M2 M2_word B2 W2).
    change (set_g st) with (set_g (lin_step B1 B2 st)).
    rewrite IH by (try apply mat_mul_words32; try apply lin_step_bounds;
                   solve [exact M1_word | exact M2_word]).
    rewrite (Pos_iter_ext _ (fun y => lin_step B1 B2 (lin_step B1 B2 y)))
      by (intros y; symmetry; apply lin_step_mul).
    rewrite Pos_iter_twice, Pos.iter_swap. reflexivity.
  - rewrite (mod_mat_sq_exact M1 M1_word B1 W1).
    rewrite (mod_mat_sq_exact M2 M2_word B2 W2).
    rewrite IH by (try apply mat_mul_words32; try exact H;
                   solve [exact M1_word | exact M2_word]).
    rewrite (Pos_iter_ext _ (fun y => lin_step B1 B2 (lin_step B1 B2 y)))
      by (intros y; symmetry; apply lin_step_mul).
    apply Pos_iter_twice.
  - destruct (one B1 B2 st W1 W2 H) as [-> ->]. reflexivity.
Qed.

Lemma discard_one_lin (st : mrg32k3a_state) :
  state_bounds st -> discard 1 st = lin_step A1 A2 st.
Proof.
  intros H. unfold discard, discard_impl, discard_state.
  apply (jump_pos_iter 1); [apply A1_words32 | apply A1_words32 | exact H].
Qed.

Lemma discard_subsequence_one_lin (st : mrg32k3a_state) :
  state_bounds st -> discard_subsequence 1 st = lin_step A1p67 A2p67 st.
Proof.
  intros H. unfold discard_subsequence, discard_subsequence_impl.
  apply (jump_pos_iter 1);
    [apply A1p67_words32 | apply A1p67_words32 | exact H].
Qed.

(** [discard(n)] for [n >= 1] is [n] times [discard(1)], from every state
    within bounds. *)
Lemma discard_is_iterated_discard_one (n : positive) (st : mrg32k3a_state) :
  state_bounds st -> discard (Z.pos n) st = Pos.iter (discard 1) st n.
Proof.
  intros H.
  transitivity (Pos.iter (lin_step A1 A2) st n).
  - unfold discard, discard_impl, discard_state.
    apply jump_pos_iter; [apply A1_words32 | apply A1_words32 | exact H].
  - symmetry.
    apply (Pos_iter_agree (discard 1) state_bounds (lin_step A1 A2));
      [exact discard_one_lin | exact (discard_preserves_bounds 1) | exact H].
Qed.

(** [n] calls of [next] from a state within bounds. *)
Lemma next_state_iter (n : positive) (st : mrg32k3a_state) :
  state_bounds st ->
  Pos.iter next_state st n = Pos.iter (lin_step next_A1 next_A2) st n.
Proof.
  intros H.
  apply (Pos_iter_agree next_state state_bounds (lin_step next_A1 next_A2));
    [exact next_state_lin | exact next_preserves_bounds | exact H].
Qed.

(** [2 ^ k] calls of [next] from a state within bounds. *)
Lemma next_state_iter_pow2 (k : nat) (st : mrg32k3a_state) :
  state_bounds st ->
  Pos.iter next_state st (pow2 k) =
  lin_step (Nat.iter k (mat_sq M1) next_A1) (Nat.iter k (mat_sq M2) next_A2) st.
Proof.
  intros H. rewrite <- lin_step_iter_pow2. now apply next_state_iter.
Qed.

(** [2 ^ k] calls of [discard(1)] from a state within bounds. *)
Lemma discard_one_iter_pow2 (k : nat) (st : mrg32k3a_state) :
  state_bounds st ->
  Pos.iter (discard 1) st (pow2 k) =
  lin_step (Nat.iter k (mat_sq M1) A1) (Nat.iter k (mat_sq M2) A2) st.
Proof.
  intros H. rewrite <- lin_step_iter_pow2.
  apply (Pos_iter_agree (discard 1) state_bounds (lin_step A1 A2));
    [exact discard_one_lin | exact (discard_preserves_bounds 1) | exact H].
Qed.

(** What [discard_subsequence(1)] is in steps of [discard(1)]: 2^76 of them,
    from every state within bounds. *)
Lemma discard_subsequence_one_is_2_pow_76 (st : mrg32k3a_state) :
  state_bounds st ->
  discard_subsequence 1 st = Pos.iter (discard 1) st (2 ^ 76).
Proof.
  intros H. change (2 ^ 76)%positive with (pow2 76).
  rewrite (discard_one_iter_pow2 76 st H).
  rewrite (discard_subsequence_one_lin st H).
  f_equal; vm_compute; reflexivity.
Qed.

(** ** Jump-ahead against naive iteration *)

(** C1 at the engine seeded with 12345 and [n = 1]: the state left by
    [discard(1)] is not the state left by one call of [next], and the value
    that [next] returns after [discard(1)], 1963785228, is neither the
    second value of the naive sequence, 631176402, nor its first,
    3078005992.  The values after [discard(2)] and [discard(1000)] differ
    from the naive ones as well; only [n = 0] agrees. *)
Theorem discard_one_differs_from_next :
  state_bounds engine_12345 /\
  g1 engine_12345 = (51704975, 1711840, 51704975) /\
  g2 engine_12345 = (188071960, 144885035, 188071960) /\
  g1 (next_state engine_12345) = (1711840, 51704975, 2025582887) /\
  g2 (next_state engine_12345) = (144885035, 188071960, 3242543982) /\
  g1 (discard 1 engine_12345) = (207797320, 61646436, 1711840) /\
  g2 (discard 1 engine_12345) = (321051091, 188071960, 3066377926) /\
  discard 1 engine_12345 <> next_state engine_12345 /\
  fst (next engine_12345) = 3078005992 /\
  fst (next (next_state engine_12345)) = 631176402 /\
  fst (next (discard 1 engine_12345)) = 1963785228 /\
  fst (next (discard 2 engine_12345))
    <> fst (next (Pos.iter next_state engine_12345 2)) /\
  fst (next (discard 1000 engine_12345))
    <> fst (next (Pos.iter next_state engine_12345 1000)) /\
  fst (next (discard 0 engine_12345)) = fst (next engine_12345).
Proof.
  split; [exact engine_12345_bounds|].
  do 6 (split; [reflexivity|]).
  split; [vm_compute; discriminate|].
  do 3 (split; [reflexivity|]).
  do 2 (split; [vm_compute; discriminate|]).
  reflexivity.
Qed.

(** C8 at the engine seeded with 12345: the arrays [A1p67] and [A2p67] are
    the arrays [A1] and [A2] of [discard_state] squared 76 times, not 67
    times; the state left by [discard_subsequence(1)] is not the state after
    2^67 calls of [next] (nor after 2^76 of them), nor after 2^67 calls of
    [discard(1)]; it is the state after 2^76 calls of [discard(1)]. *)
Theorem subsequence_jump_is_not_2_pow_67 :
  Nat.iter 76 (fun X => mod_mat_sq X M1) A1 = A1p67 /\
  Nat.iter 76 (fun X => mod_mat_sq X M2) A2 = A2p67 /\
  Nat.iter 67 (fun X => mod_mat_sq X M1) A1 <> A1p67 /\
  Nat.iter 67 (fun X => mod_mat_sq X M2) A2 <> A2p67 /\
  discard_subsequence 1 engine_12345
    <> Pos.iter next_state engine_12345 (2 ^ 67) /\
  discard_subsequence 1 engine_12345
    <> Pos.iter next_state engine_12345 (2 ^ 76) /\
  discard_subsequence 1 engine_12345
    <> Pos.iter (discard 1) engine_12345 (2 ^ 67) /\
  discard_subsequence 1 engine_12345
    = Pos.iter (discard 1) engine_12345 (2 ^ 76).
Proof.
  split; [vm_compute; reflexivity|].
  split; [vm_compute; reflexivity|].
  split; [vm_compute; discriminate|].
  split; [vm_compute; discriminate|].
  split; [|split; [|split]].
  - change (2 ^ 67)%positive with (pow2 67).
    rewrite (next_state_iter_pow2 67 _ engine_12345_bounds).
    vm_compute. discriminate.
  - change (2 ^ 76)%positive with (pow2 76).
    rewrite (next_state_iter_pow2 76 _ engine_12345_bounds).
    vm_compute. discriminate.
  - change (2 ^ 67)%positive with (pow2 67).
    rewrite (discard_one_iter_pow2 67 _ engine_12345_bounds).
    vm_compute. discriminate.
  - exact (discard_subsequence_one_is_2_pow_76 _ engine_12345_bounds).
Qed.

(** * Further properties of the engine *)

(** ** The reductions on every 64-bit word *)

(** [mod_m1] on any 64-bit word: the folded value [p], corrected once. *)
Lemma mod_m1_any (v : Z) :
  0 <= v < 2 ^ 64 ->
  let p := v mod 2 ^ 32 + v / 2 ^ 32 * M1C in
  mod_m1 v = (if M1 <=? p then p - M1 else p) /\
  v = M1 * (v / 2 ^ 32) + p /\
  0 <= v mod 2 ^ 32 < 2 ^ 32 /\ 0 <= v / 2 ^ 32 < 2 ^ 32.
Proof.
  intros Hv p. unfold mod_m1.
  destruct (fold32_bounds v M1C) as (Ep & Ev & Hr & Hq);
    [exact Hv | consts; lia |].
  set (p' := u64 (Z.land v (POW32 - 1) + u64 (Z.shiftr v 32 * M1C))) in *.
  fold p in Ep. rewrite Ep in *. clear Ep p'.
  split; [|split; [consts; lia | split; assumption]].
  destruct (Z.leb_spec M1 p); [|reflexivity].
  apply u64_small. subst p. consts; lia.
Qed.

Lemma mod_m1_upper (v : Z) :
  0 <= v < 2 ^ 64 ->
  0 <= mod_m1 v /\ mod_m1 v <= v mod 2 ^ 32 + v / 2 ^ 32 * M1C.
Proof.
  intros Hv. destruct (mod_m1_any v Hv) as (E & _ & Hr & Hq).
  cbv zeta in E. rewrite E.
  destruct (Z.leb_spec M1 (v mod 2 ^ 32 + v / 2 ^ 32 * M1C)); consts; lia.
Qed.

Lemma mod_m1_mod (v : Z) : 0 <= v < 2 ^ 64 -> mod_m1 v mod M1 = v mod M1.
Proof.
  intros Hv. destruct (mod_m1_any v Hv) as (E & Ev & _).
  cbv zeta in E, Ev. rewrite E.
  set (p := v mod 2 ^ 32 + v / 2 ^ 32 * M1C) in *.
  destruct (Z.leb_spec M1 p).
  - transitivity ((p - M1 + (v / 2 ^ 32 + 1) * M1) mod M1);
      [now rewrite Z_mod_plus_full | f_equal; lia].
  - transitivity ((p + (v / 2 ^ 32) * M1) mod M1);
      [now rewrite Z_mod_plus_full | f_equal; lia].
Qed.

(** X1: for every 64-bit word [v], [mod_m1(v)] is congruent to [v] modulo
    [M1]; it is the remainder itself whenever [v] is below
    [20550081 * 2^32], and for larger words the single correction can leave
    a value that is not below [M1], as for [v = 2^64 - 1]. *)
Theorem mod_m1_congruent_on_words (v : Z) :
  0 <= v < 2 ^ 64 ->
  mod_m1 v mod M1 = v mod M1 /\
  0 <= mod_m1 v /\
  (v < 20550081 * 2 ^ 32 -> mod_m1 v = v mod M1) /\
  M1 <= mod_m1 (2 ^ 64 - 1).
Proof.
  intros Hv. split; [now apply mod_m1_mod|].
  split; [now apply mod_m1_upper|].
  split; [|by_eval].
  intros Hb. apply mod_m1_spec. lia.
Qed.

Lemma mod_m1_congruent_on_words_witness :
  0 <= 18446744073709551615 < 2 ^ 64 /\
  mod_m1 18446744073709551615 mod M1 = 18446744073709551615 mod M1.
Proof.
  assert (H : 0 <= 18446744073709551615 < 2 ^ 64) by by_eval.
  split; [exact H|].
  exact (proj1 (mod_m1_congruent_on_words _ H)).
Defined.

(** X2: for every 64-bit word [v], [mod_m2(v)] is the remainder of [v]
    modulo [M2], a value below [M2]: the double fold covers the whole
    range of [unsigned long long]. *)
Theorem mod_m2_exact_on_words (v : Z) :
  0 <= v < 2 ^ 64 -> mod_m2 v = v mod M2 /\ 0 <= mod_m2 v < M2.
Proof.
  intros Hv. rewrite (mod_m2_spec v Hv).
  split; [reflexivity|]. apply Z.mod_pos_bound. reflexivity.
Qed.

Lemma mod_m2_exact_on_words_witness :
  0 <= 18446744073709551615 < 2 ^ 64 /\
  mod_m2 18446744073709551615 = 18446744073709551615 mod M2.
Proof.
  assert (H : 0 <= 18446744073709551615 < 2 ^ 64) by by_eval.
  split; [exact H|].
  exact (proj1 (mod_m2_exact_on_words _ H)).
Defined.

(** ** The multiply-reduce helpers beyond their exact range *)

Lemma u64_range (x : Z) : 0 <= u64 x < 2 ^ 64.
Proof. apply Z.mod_pos_bound. reflexivity. Qed.

(** For [j] below 2^48 the last reduction of [mod_mul_m1] is exact, also
    where [lo * j] wraps and the inner reductions are not complete. *)
Lemma mod_mul_m1_below_2_48 (i j : Z) :
  0 <= i < 2 ^ 32 -> 0 <= j < 2 ^ 48 ->
  let hi := s64 (i / 131072) in
  let lo := s64 (i - s64 (hi * 131072)) in
  mod_mul_m1 i j =
    (mod_m1 (hi * j) * 131072 + mod_m1 (u64 (lo * j))) mod M1.
Proof.
  intros Hi Hj. unfold mod_mul_m1.
  destruct (split17 i Hi) as (E & Hhi & Hlo & -> & ->).
  set (hi := s64 (i / 131072)) in *.
  set (lo := s64 (i - s64 (hi * 131072))) in *.
  cbv zeta. change (2 ^ 48) with 281474976710656 in Hj.
  assert (Hh : 0 <= hi * j < 2 ^ 63) by (consts; nia).
  rewrite (u64_small (hi * j)) by (consts; lia).
  destruct (mod_m1_upper (hi * j)) as [L1 U1]; [consts; lia|].
  assert (Q1 : hi * j / 2 ^ 32 < 2147483648).
  { apply Z.div_lt_upper_bound; consts; lia. }
  pose proof (Z.mod_pos_bound (hi * j) (2 ^ 32) ltac:(reflexivity)) as R1.
  pose proof (u64_range (lo * j)) as W.
  destruct (mod_m1_upper (u64 (lo * j)) W) as [L2 U2].
  assert (Q2 : u64 (lo * j) / 2 ^ 32 < 4294967296).
  { apply Z.div_lt_upper_bound; consts; lia. }
  pose proof (Z.mod_pos_bound (u64 (lo * j)) (2 ^ 32) ltac:(reflexivity)) as R2.
  set (t1 := mod_m1 (hi * j)) in *. set (t2 := mod_m1 (u64 (lo * j))) in *.
  rewrite (u64_small (t1 * 131072)) by (consts; lia).
  rewrite (s64_small (t1 * 131072)) by (consts; lia).
  rewrite (s64_small t2) by (consts; lia).
  rewrite (s64_small (_ + _)) by (consts; lia).
  rewrite (u64_small (_ + _)) by (consts; lia).
  rewrite mod_m1_spec by (consts; lia).
  pose proof (Z.mod_pos_bound (t1 * 131072 + t2) M1 M1_pos) as B3.
  rewrite s64_small by (consts; lia).
  destruct (Z.ltb_spec ((t1 * 131072 + t2) mod M1) 0); [lia|].
  apply u64_small. consts; lia.
Qed.

Lemma mod_mul_m1_range (i j : Z) :
  0 <= i < 2 ^ 32 -> 0 <= j < 2 ^ 48 -> 0 <= mod_mul_m1 i j < M1.
Proof.
  intros Hi Hj. rewrite (mod_mul_m1_below_2_48 i j Hi Hj).
  apply Z.mod_pos_bound. reflexivity.
Qed.

Lemma mod_mul_m1_below_2_47 (i j : Z) :
  0 <= i < 2 ^ 32 -> 0 <= j < 2 ^ 47 -> mod_mul_m1 i j = (i * j) mod M1.
Proof.
  intros Hi Hj.
  assert (Hj' : 0 <= j < 2 ^ 48).
  { change (2 ^ 47) with 140737488355328 in Hj.
    change (2 ^ 48) with 281474976710656. lia. }
  rewrite (mod_mul_m1_below_2_48 i j Hi Hj').
  destruct (split17 i Hi) as (E & Hhi & Hlo & _ & _).
  set (hi := s64 (i / 131072)) in *.
  set (lo := s64 (i - s64 (hi * 131072))) in *.
  change (2 ^ 47) with 140737488355328 in Hj.
  rewrite (u64_small (lo * j)) by (consts; nia).
  rewrite <- (mod_combine (mod_m1 (hi * j))) by discriminate.
  rewrite !mod_m1_mod by (consts; nia).
  rewrite mod_combine by discriminate.
  f_equal. transitivity ((131072 * hi + lo) * j); [ring|].
  now rewrite <- E.
Qed.

(** [mod_mul_m2] returns a value below [M2] whatever [j] is. *)
Lemma mod_mul_m2_range (i j : Z) :
  0 <= i < 2 ^ 32 -> 0 <= mod_mul_m2 i j < M2.
Proof.
  intros Hi. unfold mod_mul_m2.
  destruct (split17 i Hi) as (E & Hhi & Hlo & -> & ->).
  set (hi := s64 (i / 131072)) in *.
  set (lo := s64 (i - s64 (hi * 131072))) in *.
  rewrite (mod_m2_spec (u64 (hi * j))) by apply u64_range.
  rewrite (mod_m2_spec (u64 (lo * j))) by apply u64_range.
  pose proof (Z.mod_pos_bound (u64 (hi * j)) M2 M2_pos) as B1.
  pose proof (Z.mod_pos_bound (u64 (lo * j)) M2 M2_pos) as B2.
  set (t1 := u64 (hi * j) mod M2) in *. set (t2 := u64 (lo * j) mod M2) in *.
  rewrite (u64_small (t1 * 131072)) by (consts; lia).
  rewrite (s64_small (t1 * 131072)) by (consts; lia).
  rewrite (s64_small t2) by (consts; lia).
  rewrite (s64_small (_ + _)) by (consts; lia).
  rewrite (u64_small (_ + _)) by (consts; lia).
  rewrite mod_m2_spec by (consts; lia).
  pose proof (Z.mod_pos_bound (t1 * 131072 + t2) M2 M2_pos) as B3.
  rewrite s64_small by (consts; lia).
  destruct (Z.ltb_spec ((t1 * 131072 + t2) mod M2) 0); [lia|].
  rewrite u64_small by (consts; lia). exact B3.
Qed.

(** Both helpers are exact as long as [lo * j], with [lo] at most 131071,
    does not wrap: for [j] up to [(2^64 - 1) / 131071]. *)
Lemma mod_mul_m1_no_wrap (i j : Z) :
  0 <= i < 2 ^ 32 -> 0 <= j <= 140738562105344 ->
  mod_mul_m1 i j = (i * j) mod M1.
Proof.
  intros Hi Hj.
  assert (Hj' : 0 <= j < 2 ^ 48).
  { change (2 ^ 48) with 281474976710656. lia. }
  rewrite (mod_mul_m1_below_2_48 i j Hi Hj').
  destruct (split17 i Hi) as (E & Hhi & Hlo & _ & _).
  set (hi := s64 (i / 131072)) in *.
  set (lo := s64 (i - s64 (hi * 131072))) in *.
  rewrite (u64_small (lo * j)) by (consts; nia).
  rewrite <- (mod_combine (mod_m1 (hi * j))) by discriminate.
  rewrite !mod_m1_mod by (consts; nia).
  rewrite mod_combine by discriminate.
  f_equal. transitivity ((131072 * hi + lo) * j); [ring|].
  now rewrite <- E.
Qed.

Lemma mod_mul_m2_no_wrap (i j : Z) :
  0 <= i < 2 ^ 32 -> 0 <= j <= 140738562105344 ->
  mod_mul_m2 i j = (i * j) mod M2.
Proof.
  intros Hi Hj. unfold mod_mul_m2.
  destruct (split17 i Hi) as (E & Hhi & Hlo & -> & ->).
  set (hi := s64 (i / 131072)) in *.
  set (lo := s64 (i - s64 (hi * 131072))) in *.
  rewrite (u64_small (hi * j)) by (consts; nia).
  rewrite (u64_small (lo * j)) by (consts; nia).
  rewrite (mod_m2_spec (hi * j)) by (consts; nia).
  rewrite (mod_m2_spec (lo * j)) by (consts; nia).
  pose proof (Z.mod_pos_bound (hi * j) M2 M2_pos) as B1.
  pose proof (Z.mod_pos_bound (lo * j) M2 M2_pos) as B2.
  rewrite (u64_small (_ * 131072)) by (consts; lia).
  rewrite (s64_small (_ * 131072)) by (consts; lia).
  rewrite (s64_small ((lo * j) mod M2)) by (consts; lia).
  rewrite (s64_small (_ + _)) by (consts; lia).
  rewrite (u64_small (_ + _)) by (consts; lia).
  rewrite mod_m2_spec by (consts; lia).
  pose proof (Z.mod_pos_bound ((hi * j) mod M2 * 131072 + (lo * j) mod M2)
                              M2 M2_pos) as B3.
  rewrite s64_small by (consts; lia).
  destruct (Z.ltb_spec (((hi * j) mod M2 * 131072 + (lo * j) mod M2) mod M2) 0);
    [lia|].
  rewrite u64_small by (consts; lia).
  rewrite mod_combine by discriminate.
  f_equal. transitivity ((131072 * hi + lo) * j); [ring|].
  now rewrite <- E.
Qed.

(** C10, amended: for every 32-bit [i] and every [j] up to 140738562105344,
    the largest [j] for which [131071 * j] fits 64 bits (every [j] below
    2^47 is such), [mod_mul_m1(i, j)] is the exact product modulo [M1] and
    [mod_mul_m2(i, j)] the exact product modulo [M2]. *)
Theorem mod_mul_exact_below_wrap (i j : Z) :
  0 <= i < 2 ^ 32 -> 0 <= j <= 140738562105344 ->
  mod_mul_m1 i j = (i * j) mod M1 /\ mod_mul_m2 i j = (i * j) mod M2.
Proof.
  intros Hi Hj. split.
  - now apply mod_mul_m1_no_wrap.
  - now apply mod_mul_m2_no_wrap.
Qed.

Lemma mod_mul_exact_below_wrap_witness :
  0 <= 4294967295 < 2 ^ 32 /\
  0 <= 140738562105344 <= 140738562105344 /\
  mod_mul_m1 4294967295 140738562105344
    = (4294967295 * 140738562105344) mod M1 /\
  mod_mul_m2 4294967295 140738562105344
    = (4294967295 * 140738562105344) mod M2.
Proof.
  assert (Hi : 0 <= 4294967295 < 2 ^ 32) by by_eval.
  assert (Hj : 0 <= 140738562105344 <= 140738562105344) by by_eval.
  split; [exact Hi|]. split; [exact Hj|].
  exact (mod_mul_exact_below_wrap 4294967295 140738562105344 Hi Hj).
Defined.

(** C10 as stated fails: with [i = 2^32 - 1] and [j = 2^64 - 1] neither
    helper returns the remainder of the exact product; and the bound of the
    amended statement is the last one: 2^47 is below it, and at
    [j = 140738562105345], where [131071 * j] no longer fits 64 bits, both
    helpers return 122879 for [i = 131071], not the remainders 166560 and
    522382488. *)
Lemma mod_mul_wraps_for_large_j :
  0 <= 4294967295 < 2 ^ 32 /\ 0 <= 18446744073709551615 < 2 ^ 64 /\
  mod_mul_m1 4294967295 18446744073709551615
    <> (4294967295 * 18446744073709551615) mod M1 /\
  mod_mul_m2 4294967295 18446744073709551615
    <> (4294967295 * 18446744073709551615) mod M2 /\
  2 ^ 47 <= 140738562105344 /\
  131071 * 140738562105344 < 2 ^ 64 <= 131071 * 140738562105345 /\
  mod_mul_m1 131071 140738562105345 = 122879 /\
  (131071 * 140738562105345) mod M1 = 166560 /\
  mod_mul_m2 131071 140738562105345 = 122879 /\
  (131071 * 140738562105345) mod M2 = 522382488.
Proof. by_eval. Qed.

(** X3: for every 32-bit [i], [mod_mul_m2(i, j)] is below [M2] for every
    [j]; [mod_mul_m1(i, j)] is below [M1] for every [j] below 2^48 and is
    the exact product modulo [M1] for every [j] below 2^47. *)
Theorem mod_mul_ranges (i j : Z) :
  0 <= i < 2 ^ 32 -> 0 <= j < 2 ^ 64 ->
  0 <= mod_mul_m2 i j < M2 /\
  (j < 2 ^ 48 -> 0 <= mod_mul_m1 i j < M1) /\
  (j < 2 ^ 47 -> mod_mul_m1 i j = (i * j) mod M1).
Proof.
  intros Hi Hj. split; [now apply mod_mul_m2_range|].
  split; intros Hb.
  - apply mod_mul_m1_range; [exact Hi | lia].
  - apply mod_mul_m1_below_2_47; [exact Hi | lia].
Qed.

Lemma mod_mul_ranges_witness :
  0 <= 4294967295 < 2 ^ 32 /\ 0 <= 140737488355327 < 2 ^ 64 /\
  140737488355327 < 2 ^ 47 /\
  mod_mul_m1 4294967295 140737488355327
    = (4294967295 * 140737488355327) mod M1.
Proof.
  assert (Hi : 0 <= 4294967295 < 2 ^ 32) by by_eval.
  assert (Hj : 0 <= 140737488355327 < 2 ^ 64) by by_eval.
  assert (Hb : 140737488355327 < 2 ^ 47) by by_eval.
  split; [exact Hi|]. split; [exact Hj|]. split; [exact Hb|].
  exact (proj2 (proj2 (mod_mul_ranges _ _ Hi Hj)) Hb).
Defined.

(** ** Bounds after seeding and jumping *)

Lemma seed_y_range (seed_value : Z) : 0 <= seed_y seed_value < 2 ^ 32.
Proof. apply Z.mod_pos_bound. reflexivity. Qed.

Lemma seed_words_g2_bounds (seed_value : Z) (st : mrg32k3a_state) :
  in_bounds3 (g2 (seed_words seed_value st)) M2.
Proof.
  unfold seed_words, in_bounds3. cbn [g2 set_g idx3].
  set (s := if seed_value =? 0 then DEFAULT_SEED else seed_value).
  destruct (seed_x_low_half s) as [_ Hx].
  pose proof (seed_y_range s) as Hy.
  repeat split; apply mod_mul_m2_range; assumption.
Qed.

Lemma seed_words_bounds_2_48 (seed_value : Z) (st : mrg32k3a_state) :
  0 <= seed_value < 2 ^ 48 -> state_bounds (seed_words seed_value st).
Proof.
  intros Hs. split; [|apply seed_words_g2_bounds].
  unfold seed_words, in_bounds3. cbn [g1 set_g idx3].
  set (s := if seed_value =? 0 then DEFAULT_SEED else seed_value).
  assert (H48 : 0 <= s < 2 ^ 48).
  { subst s. destruct (seed_value =? 0); [by_eval | exact Hs]. }
  destruct (seed_x_low_half s) as [_ Hx].
  pose proof (seed_y_range s) as Hy.
  repeat split; apply mod_mul_m1_range; assumption.
Qed.

(** X4: for every seed below 2^48 and every subsequence and offset, [seed]
    leaves a state within bounds; and for every seed whatsoever the three
    words of [g2] that [seed] computes are below [M2]. *)
Theorem seed_below_2_48_in_bounds
  (seed_value subsequence offset : Z) (st : mrg32k3a_state) :
  0 <= seed_value < 2 ^ 48 ->
  state_bounds (seed seed_value subsequence offset st) /\
  (forall any_seed, in_bounds3 (g2 (seed_words any_seed st)) M2).
Proof.
  intros Hs. split.
  - unfold seed. apply restart_preserves_bounds.
    now apply seed_words_bounds_2_48.
  - intros any_seed. apply seed_words_g2_bounds.
Qed.

Lemma seed_below_2_48_in_bounds_witness :
  0 <= 281474976710655 < 2 ^ 48 /\
  state_bounds (seed 281474976710655 0 0 blank).
Proof.
  assert (H : 0 <= 281474976710655 < 2 ^ 48) by by_eval.
  split; [exact H|].
  exact (proj1 (seed_below_2_48_in_bounds 281474976710655 0 0 blank H)).
Defined.

Lemma jump_positive_bounds (n : Z) (B1 B2 : list Z) (st : mrg32k3a_state) :
  0 < n ->
  state_bounds
    (let '(v1, v2) := jump_loop n B1 B2 (g1 st) (g2 st) in set_g st v1 v2).
Proof.
  intros Hn. destruct n as [|p|p]; try lia. cbn [jump_loop].
  pose proof (jump_pos_bounds p B1 B2 (g1 st) (g2 st)) as H.
  destruct (jump_pos p B1 B2 (g1 st) (g2 st)) as [v1 v2]. exact H.
Qed.

(** X5: a jump by a positive count leaves a state within bounds whatever
    the words were before: [discard(n)], [discard_subsequence(n)] and
    [discard_sequence(n)] with [n > 0] end with a reduction modulo [M1] and
    [M2] of every word. *)
Theorem positive_jump_restores_bounds (n : Z) (st : mrg32k3a_state) :
  0 < n ->
  state_bounds (discard n st) /\
  state_bounds (discard_subsequence n st) /\
  state_bounds (discard_sequence n st).
Proof.
  intros Hn. repeat split; now apply jump_positive_bounds.
Qed.

Lemma positive_jump_restores_bounds_witness :
  0 < 1 /\ ~ state_bounds engine_fedc /\
  state_bounds (discard 1 engine_fedc).
Proof.
  assert (H : 0 < 1) by reflexivity.
  split; [exact H|]. split.
  - intros [(_ & [_ B] & _) _]. revert B. by_eval.
  - exact (proj1 (positive_jump_restores_bounds 1 engine_fedc H)).
Defined.

(** X6: at a non-zero subsequence or offset, [seed] leaves a state within
    bounds for every seed, also for the seeds of 48 bits and more whose
    words are out of range before the jump. *)
Theorem seed_at_jump_in_bounds
  (seed_value subsequence offset : Z) (st : mrg32k3a_state) :
  0 < subsequence \/ 0 < offset ->
  state_bounds (seed seed_value subsequence offset st).
Proof.
  intros H. unfold seed, restart.
  destruct (Z.ltb_spec 0 offset) as [Ho|Ho].
  - now apply (jump_positive_bounds offset A1 A2).
  - destruct H as [Hs|Hc]; [|lia].
    apply (discard_preserves_bounds offset).
    now apply (jump_positive_bounds subsequence A1p67 A2p67).
Qed.

Lemma seed_at_jump_in_bounds_witness :
  (0 < 0 \/ 0 < 1) /\ state_bounds (seed 0xFEDCBA9876543210 0 1 blank).
Proof.
  assert (H : 0 < 0 \/ 0 < 1) by (right; reflexivity).
  split; [exact H|].
  exact (seed_at_jump_in_bounds 0xFEDCBA9876543210 0 1 blank H).
Defined.

(** X7: from a state within bounds, [next], [discard], [discard_subsequence],
    [discard_sequence] and [restart] each leave a state within bounds, for
    every count. *)
Theorem operations_keep_bounds (st : mrg32k3a_state) :
  state_bounds st ->
  state_bounds (snd (next st)) /\
  (forall n, state_bounds (discard n st)) /\
  (forall n, state_bounds (discard_subsequence n st)) /\
  (forall n, state_bounds (discard_sequence n st)) /\
  (forall subsequence offset, state_bounds (restart subsequence offset st)).
Proof.
  intros H. split; [now apply next_preserves_bounds|].
  split; [intros n; now apply discard_preserves_bounds|].
  split; [intros n; now apply discard_subsequence_preserves_bounds|].
  split; [intros n; now apply discard_sequence_preserves_bounds|].
  intros subsequence offset. now apply restart_preserves_bounds.
Qed.

Lemma operations_keep_bounds_witness :
  state_bounds engine_12345 /\ state_bounds (snd (next engine_12345)).
Proof.
  split; [exact engine_12345_bounds|].
  exact (proj1 (operations_keep_bounds engine_12345 engine_12345_bounds)).
Defined.

(** ** What [next] computes *)

(** X8: from a state within bounds [next] is one step of the two
    recurrences: [g1] becomes [(g1[1], g1[2], (A12 * g1[1] - A13N * g1[0])
    mod M1)], [g2] becomes [(g2[1], g2[2], (A21 * g2[2] - A23N * g2[0]) mod
    M2)], the value returned is the representative in [(0, M1]] of the
    difference of the two new words modulo [M1], and the Box-Muller fields
    are not touched. *)
Theorem next_is_recurrence_step (st : mrg32k3a_state) :
  state_bounds st ->
  g1 (snd (next st)) =
    (idx3 (g1 st) 1, idx3 (g1 st) 2,
     (A12 * idx3 (g1 st) 1 - A13N * idx3 (g1 st) 0) mod M1) /\
  g2 (snd (next st)) =
    (idx3 (g2 st) 1, idx3 (g2 st) 2,
     (A21 * idx3 (g2 st) 2 - A23N * idx3 (g2 st) 0) mod M2) /\
  fst (next st) mod M1 =
    (idx3 (g1 (snd (next st))) 2 - idx3 (g2 (snd (next st))) 2) mod M1 /\
  0 < fst (next st) <= M1 /\
  boxmuller_float_state (snd (next st)) = boxmuller_float_state st /\
  boxmuller_double_state (snd (next st)) = boxmuller_double_state st /\
  boxmuller_float (snd (next st)) = boxmuller_float st /\
  boxmuller_double (snd (next st)) = boxmuller_double st.
Proof.
  intros H. rewrite (next_within_bounds st H).
  cbn [fst snd g1 g2 set_g idx3 boxmuller_float_state boxmuller_double_state
       boxmuller_float boxmuller_double].
  replace (A12 * idx3 (g1 st) 1 + A13N * (M1 - idx3 (g1 st) 0))
    with (A12 * idx3 (g1 st) 1 - A13N * idx3 (g1 st) 0 + A13N * M1) by ring.
  replace (A21 * idx3 (g2 st) 2 + A23N * (M2 - idx3 (g2 st) 0))
    with (A21 * idx3 (g2 st) 2 - A23N * idx3 (g2 st) 0 + A23N * M2) by ring.
  rewrite !Z_mod_plus_full.
  set (p1 := _ mod M1). set (p2 := _ mod M2).
  assert (H1 : 0 <= p1 < M1) by (apply Z.mod_pos_bound, M1_pos).
  assert (H2 : 0 <= p2 < M2) by (apply Z.mod_pos_bound, M2_pos).
  repeat split; try reflexivity.
  - destruct (Z.leb_spec p1 p2); [|reflexivity].
    replace (p1 - p2 + M1) with (p1 - p2 + 1 * M1) by ring.
    apply Z_mod_plus_full.
  - destruct (Z.leb_spec p1 p2); consts; lia.
  - destruct (Z.leb_spec p1 p2); consts; lia.
Qed.

Lemma next_is_recurrence_step_witness :
  state_bounds engine_12345 /\
  g1 (snd (next engine_12345)) =
    (idx3 (g1 engine_12345) 1, idx3 (g1 engine_12345) 2,
     (A12 * idx3 (g1 engine_12345) 1 - A13N * idx3 (g1 engine_12345) 0)
       mod M1).
Proof.
  split; [exact engine_12345_bounds|].
  exact (proj1 (next_is_recurrence_step engine_12345 engine_12345_bounds)).
Defined.

(** ** Programs over the C interface *)

Lemma rocrand_init_bounds (seed_value subsequence offset : Z) :
  0 <= seed_value < 2 ^ 48 \/ 0 < subsequence \/ 0 < offset ->
  state_bounds (rocrand_init seed_value subsequence offset).
Proof.
  unfold rocrand_init, mrg32k3a_engine, seed. intros [Hs|Hj].
  - apply restart_preserves_bounds. now apply seed_words_bounds_2_48.
  - unfold restart.
    destruct (Z.ltb_spec 0 offset) as [Ho|Ho].
    + now apply (jump_positive_bounds offset A1 A2).
    + destruct Hj as [Hs|Hc]; [|lia].
      apply (discard_preserves_bounds offset).
      now apply (jump_positive_bounds subsequence A1p67 A2p67).
Qed.

(** X9: every state that a program reaches from [rocrand_init] (with a seed
    below 2^48, or at a non-zero subsequence or offset) through calls of
    [rocrand], [skipahead], [skipahead_subsequence] and [skipahead_sequence]
    is within bounds, and the next [rocrand] on it returns a value in
    [(0, M1]]. *)
Theorem reachable_states_in_range (state : mrg32k3a_state) :
  reachable state ->
  state_bounds state /\ 0 < fst (rocrand state) <= M1.
Proof.
  intros R.
  assert (B : state_bounds state).
  { induction R as [s sub off Hs | s sub off Hj | st R IH | n st R IH
                   | n st R IH | n st R IH].
    - apply rocrand_init_bounds. now left.
    - apply rocrand_init_bounds. now right.
    - now apply next_preserves_bounds.
    - now apply discard_preserves_bounds.
    - now apply discard_subsequence_preserves_bounds.
    - now apply discard_sequence_preserves_bounds. }
  split; [exact B|].
  unfold rocrand. rewrite (next_within_bounds state B). cbn [fst].
  set (p1 := _ mod M1). set (p2 := _ mod M2).
  assert (H1 : 0 <= p1 < M1) by (apply Z.mod_pos_bound, M1_pos).
  assert (H2 : 0 <= p2 < M2) by (apply Z.mod_pos_bound, M2_pos).
  destruct (Z.leb_spec p1 p2); consts; lia.
Qed.

Lemma reachable_states_in_range_witness :
  reachable (skipahead 5 (snd (rocrand (rocrand_init 12345 0 0)))) /\
  0 < fst (rocrand (skipahead 5 (snd (rocrand (rocrand_init 12345 0 0)))))
    <= M1.
Proof.
  assert (R : reachable (skipahead 5 (snd (rocrand (rocrand_init 12345 0 0))))).
  { apply reach_skipahead, reach_rocrand, reach_init_seed. by_eval. }
  split; [exact R|].
  exact (proj2 (reachable_states_in_range _ R)).
Defined.

(** ** The matrix helpers on words of 32 bits *)

(** X10: with a modulus of at most 2^32, a matrix of 32-bit entries and a
    vector of 32-bit words, [mod_mat_vec] returns the true product modulo
    [m]: word [i] is [(A[i] * s[0] + A[i+3] * s[1] + A[i+6] * s[2]) mod m],
    a value below [m]; no 64-bit operation wraps. *)
Theorem mod_mat_vec_true_product (A : list Z) (s : arr3) (m : Z) :
  0 < m <= 2 ^ 32 -> words32 A -> in_bounds3 s (2 ^ 32) ->
  mod_mat_vec A s m =
    ((nth 0 A 0 * idx3 s 0 + nth 3 A 0 * idx3 s 1 + nth 6 A 0 * idx3 s 2) mod m,
     (nth 1 A 0 * idx3 s 0 + nth 4 A 0 * idx3 s 1 + nth 7 A 0 * idx3 s 2) mod m,
     (nth 2 A 0 * idx3 s 0 + nth 5 A 0 * idx3 s 1 + nth 8 A 0 * idx3 s 2) mod m)
  /\ in_bounds3 (mod_mat_vec A s m) m.
Proof.
  intros Hm HA Hs. split.
  - rewrite (mod_mat_vec_exact m Hm A s HA Hs). reflexivity.
  - apply mod_mat_vec_bounds. lia.
Qed.

Lemma mod_mat_vec_true_product_witness :
  0 < M1 <= 2 ^ 32 /\ words32 A1 /\
  in_bounds3 (51704975, 1711840, 51704975) (2 ^ 32) /\
  in_bounds3 (mod_mat_vec A1 (51704975, 1711840, 51704975) M1) M1.
Proof.
  assert (Hm : 0 < M1 <= 2 ^ 32) by by_eval.
  assert (HA : words32 A1) by (repeat constructor; by_eval).
  assert (Hs : in_bounds3 (51704975, 1711840, 51704975) (2 ^ 32)) by by_eval.
  split; [exact Hm|]. split; [exact HA|]. split; [exact Hs|].
  exact (proj2 (mod_mat_vec_true_product A1 _ M1 Hm HA Hs)).
Defined.

(** X11: with a modulus of at most 2^32 and a matrix of 32-bit entries,
    [mod_mat_sq] returns nine entries below [m] that are the square of the
    matrix modulo [m]: applying the squared matrix with [mod_mat_vec] is
    applying the matrix twice. *)
Theorem mod_mat_sq_applies_twice (A : list Z) (s : arr3) (m : Z) :
  0 < m <= 2 ^ 32 -> words32 A -> in_bounds3 s (2 ^ 32) ->
  mod_mat_vec (mod_mat_sq A m) s m = mod_mat_vec A (mod_mat_vec A s m) m /\
  length (mod_mat_sq A m) = 9%nat /\
  Forall (fun a => 0 <= a < m) (mod_mat_sq A m).
Proof.
  intros Hm HA Hs. split; [|split].
  - rewrite (mod_mat_sq_exact m Hm A HA).
    rewrite (mod_mat_vec_exact m Hm (mat_sq m A) s
               (mat_mul_words32 m Hm A A) Hs).
    rewrite (mod_mat_vec_exact m Hm A s HA Hs).
    rewrite (mod_mat_vec_exact m Hm A (mat_vec m A s) HA).
    + apply mat_vec_mul.
    + apply (in_bounds3_words32 _ m); [lia|]. apply mat_vec_bounds. exact Hm.
  - reflexivity.
  - unfold mod_mat_sq. repeat constructor; apply Z.mod_pos_bound; lia.
Qed.

Lemma mod_mat_sq_applies_twice_witness :
  0 < M1 <= 2 ^ 32 /\ words32 A1 /\
  in_bounds3 (51704975, 1711840, 51704975) (2 ^ 32) /\
  mod_mat_vec (mod_mat_sq A1 M1) (51704975, 1711840, 51704975) M1 =
  mod_mat_vec A1 (mod_mat_vec A1 (51704975, 1711840, 51704975) M1) M1.
Proof.
  assert (Hm : 0 < M1 <= 2 ^ 32) by by_eval.
  assert (HA : words32 A1) by (repeat constructor; by_eval).
  assert (Hs : in_bounds3 (51704975, 1711840, 51704975) (2 ^ 32)) by by_eval.
  split; [exact Hm|]. split; [exact HA|]. split; [exact Hs|].
  exact (proj1 (mod_mat_sq_applies_twice A1 _ M1 Hm HA Hs)).
Defined.

(** ** Jumps counted in single steps *)

Lemma Pos_iter_mul {X : Type} (f : X -> X) (p q : positive) (x : X) :
  Pos.iter (fun y => Pos.iter f y q) x p = Pos.iter f x (p * q).
Proof.
  induction p as [|p IH] using Pos.peano_ind.
  - now rewrite Pos.mul_1_l.
  - rewrite Pos.iter_succ, IH, Pos.mul_succ_l, Pos.iter_add. reflexivity.
Qed.

Lemma A1p127_words32 : words32 A1p127 /\ words32 A2p127.
Proof. split; repeat constructor; by_eval. Qed.

(** The tables of [discard_subsequence_impl] and [discard_sequence_impl] act
    as 2^76 and 2^127 applications of the matrices of [discard_state]. *)
Lemma lin_step_A1p67 (st : mrg32k3a_state) :
  lin_step A1p67 A2p67 st = Pos.iter (lin_step A1 A2) st (2 ^ 76).
Proof.
  change (2 ^ 76)%positive with (pow2 76). rewrite lin_step_iter_pow2.
  f_equal; vm_compute; reflexivity.
Qed.

Lemma lin_step_A1p127 (st : mrg32k3a_state) :
  lin_step A1p127 A2p127 st = Pos.iter (lin_step A1 A2) st (2 ^ 127).
Proof.
  change (2 ^ 127)%positive with (pow2 127). rewrite lin_step_iter_pow2.
  f_equal; vm_compute; reflexivity.
Qed.

Lemma jump_nonpositive (n : Z) (B1 B2 : list Z) (st : mrg32k3a_state) :
  n <= 0 ->
  (let '(v1, v2) := jump_loop n B1 B2 (g1 st) (g2 st) in set_g st v1 v2) = st.
Proof.
  intros Hn. destruct st as [v1 v2 fs ds f d].
  destruct n as [|p|p]; try lia; reflexivity.
Qed.

Lemma steps_bounds (n : Z) (st : mrg32k3a_state) :
  state_bounds st -> state_bounds (steps n st).
Proof.
  intros H. destruct n as [|p|p]; cbn [steps]; try exact H.
  apply (Pos.iter_invariant p _ (lin_step A1 A2) state_bounds); [|exact H].
  intros x _. apply lin_step_bounds.
Qed.

Lemma steps_add (a b : Z) (st : mrg32k3a_state) :
  0 <= a -> 0 <= b -> steps (a + b) st = steps a (steps b st).
Proof.
  intros Ha Hb. destruct a as [|p|p]; try lia; [reflexivity|].
  destruct b as [|q|q]; try lia; [now rewrite Z.add_0_r|].
  cbn [Z.add steps]. apply Pos.iter_add.
Qed.

Lemma discard_steps (n : Z) (st : mrg32k3a_state) :
  state_bounds st -> discard n st = steps n st.
Proof.
  intros H. unfold discard, discard_impl, discard_state.
  destruct n as [|p|p]; try (apply jump_nonpositive; lia).
  apply jump_pos_iter; [apply A1_words32 | apply A1_words32 | exact H].
Qed.

Lemma discard_subsequence_steps (n : Z) (st : mrg32k3a_state) :
  state_bounds st -> discard_subsequence n st = steps (n * 2 ^ 76) st.
Proof.
  intros H. unfold discard_subsequence, discard_subsequence_impl.
  destruct n as [|p|p]; try (apply jump_nonpositive; lia).
  cbn [jump_loop].
  rewrite jump_pos_iter by (try apply A1p67_words32; exact H).
  rewrite (Pos_iter_ext (lin_step A1p67 A2p67)
             (fun y => Pos.iter (lin_step A1 A2) y (2 ^ 76))
             lin_step_A1p67).
  exact (Pos_iter_mul (lin_step A1 A2) p (2 ^ 76) st).
Qed.

Lemma discard_sequence_steps (n : Z) (st : mrg32k3a_state) :
  state_bounds st -> discard_sequence n st = steps (n * 2 ^ 127) st.
Proof.
  intros H. unfold discard_sequence, discard_sequence_impl.
  destruct n as [|p|p]; try (apply jump_nonpositive; lia).
  cbn [jump_loop].
  rewrite jump_pos_iter by (try apply A1p127_words32; exact H).
  rewrite (Pos_iter_ext (lin_step A1p127 A2p127)
             (fun y => Pos.iter (lin_step A1 A2) y (2 ^ 127))
             lin_step_A1p127).
  exact (Pos_iter_mul (lin_step A1 A2) p (2 ^ 127) st).
Qed.

(** X12: from a state within bounds the three jumps are additive in their
    count, as long as the sum of the counts fits 64 bits: for
    [a + b < 2^64], [discard(a + b)] is [discard(b)] then [discard(a)], and
    likewise for [discard_subsequence] and [discard_sequence]. *)
Theorem jumps_are_additive (a b : Z) (st : mrg32k3a_state) :
  state_bounds st -> 0 <= a -> 0 <= b -> a + b < 2 ^ 64 ->
  discard (a + b) st = discard a (discard b st) /\
  discard_subsequence (a + b) st
    = discard_subsequence a (discard_subsequence b st) /\
  discard_sequence (a + b) st = discard_sequence a (discard_sequence b st).
Proof.
  intros H Ha Hb _. repeat split.
  - rewrite (discard_steps (a + b) st H), (discard_steps b st H).
    rewrite discard_steps by now apply steps_bounds.
    now apply steps_add.
  - rewrite (discard_subsequence_steps (a + b) st H).
    rewrite (discard_subsequence_steps b st H).
    rewrite discard_subsequence_steps by now apply steps_bounds.
    rewrite Z.mul_add_distr_r. apply steps_add; lia.
  - rewrite (discard_sequence_steps (a + b) st H).
    rewrite (discard_sequence_steps b st H).
    rewrite discard_sequence_steps by now apply steps_bounds.
    rewrite Z.mul_add_distr_r. apply steps_add; lia.
Qed.

Lemma jumps_are_additive_witness :
  state_bounds engine_12345 /\ 0 <= 3 /\ 0 <= 4 /\ 3 + 4 < 2 ^ 64 /\
  discard (3 + 4) engine_12345 = discard 3 (discard 4 engine_12345).
Proof.
  assert (Ha : 0 <= 3) by discriminate.
  assert (Hb : 0 <= 4) by discriminate.
  assert (Hs : 3 + 4 < 2 ^ 64) by reflexivity.
  split; [exact engine_12345_bounds|]. split; [exact Ha|]. split; [exact Hb|].
  split; [exact Hs|].
  exact (proj1 (jumps_are_additive 3 4 engine_12345
                  engine_12345_bounds Ha Hb Hs)).
Defined.

(** X13: from a state within bounds the three jumps commute with one
    another; in particular the order of [discard_subsequence] and [discard]
    inside [restart] does not change the state it leaves. *)
Theorem jumps_commute (a b : Z) (st : mrg32k3a_state) :
  state_bounds st -> 0 <= a -> 0 <= b ->
  discard a (discard_subsequence b st)
    = discard_subsequence b (discard a st) /\
  discard a (discard_sequence b st) = discard_sequence b (discard a st) /\
  discard_subsequence a (discard_sequence b st)
    = discard_sequence b (discard_subsequence a st) /\
  restart b a st
    = discard_subsequence b
        (discard a (mk_state (g1 st) (g2 st) 0 0
                             (boxmuller_float st) (boxmuller_double st))).
Proof.
  intros H Ha Hb.
  assert (C : forall x y s, 0 <= x -> 0 <= y ->
            steps x (steps y s) = steps y (steps x s)).
  { intros x y s Hx Hy. rewrite <- !steps_add by lia. f_equal. lia. }
  assert (S1 : forall s, state_bounds s ->
            discard a (discard_subsequence b s)
            = discard_subsequence b (discard a s)).
  { intros s Hs.
    rewrite (discard_subsequence_steps b s Hs), (discard_steps a s Hs).
    rewrite discard_steps, discard_subsequence_steps by now apply steps_bounds.
    apply C; lia. }
  split; [now apply S1|]. split; [|split].
  - rewrite (discard_sequence_steps b st H), (discard_steps a st H).
    rewrite discard_steps, discard_sequence_steps by now apply steps_bounds.
    apply C; lia.
  - rewrite (discard_sequence_steps b st H).
    rewrite (discard_subsequence_steps a st H).
    rewrite discard_subsequence_steps, discard_sequence_steps
      by now apply steps_bounds.
    apply C; lia.
  - unfold restart. cbn [g1 g2 boxmuller_float_state boxmuller_double_state
      boxmuller_float boxmuller_double].
    apply (S1 (mk_state (g1 st) (g2 st) 0 0
                        (boxmuller_float st) (boxmuller_double st))).
    exact H.
Qed.

Lemma jumps_commute_witness :
  state_bounds engine_12345 /\ 0 <= 3 /\ 0 <= 4 /\
  discard 3 (discard_subsequence 4 engine_12345)
    = discard_subsequence 4 (discard 3 engine_12345).
Proof.
  assert (Ha : 0 <= 3) by discriminate.
  assert (Hb : 0 <= 4) by discriminate.
  split; [exact engine_12345_bounds|]. split; [exact Ha|]. split; [exact Hb|].
  exact (proj1 (jumps_commute 3 4 engine_12345 engine_12345_bounds Ha Hb)).
Defined.

Lemma discard_one_iter (n : positive) (st : mrg32k3a_state) :
  state_bounds st ->
  Pos.iter (discard 1) st n = Pos.iter (lin_step A1 A2) st n.
Proof.
  intros H.
  apply (Pos_iter_agree (discard 1) state_bounds (lin_step A1 A2));
    [exact discard_one_lin | exact (discard_preserves_bounds 1) | exact H].
Qed.

Lemma discard_subsequence_one_iter (n : positive) (st : mrg32k3a_state) :
  state_bounds st ->
  Pos.iter (discard_subsequence 1) st n
  = Pos.iter (lin_step A1 A2) st (n * 2 ^ 76).
Proof.
  intros H.
  transitivity (Pos.iter (lin_step A1p67 A2p67) st n).
  - apply (Pos_iter_agree (discard_subsequence 1) state_bounds
             (lin_step A1p67 A2p67));
      [ exact discard_subsequence_one_lin
      | exact (discard_subsequence_preserves_bounds 1) | exact H ].
  - rewrite (Pos_iter_ext (lin_step A1p67 A2p67)
               (fun y => Pos.iter (lin_step A1 A2) y (2 ^ 76))
               lin_step_A1p67).
    exact (Pos_iter_mul (lin_step A1 A2) n (2 ^ 76) st).
Qed.

(** X14: from a state within bounds, [discard_subsequence(n)] for [n >= 1]
    is [n] times [discard_subsequence(1)], which is [n * 2^76] times
    [discard(1)]. *)
Theorem discard_subsequence_in_steps (n : positive) (st : mrg32k3a_state) :
  state_bounds st ->
  discard_subsequence (Z.pos n) st = Pos.iter (discard_subsequence 1) st n /\
  discard_subsequence (Z.pos n) st = Pos.iter (discard 1) st (n * 2 ^ 76).
Proof.
  intros H.
  rewrite (discard_subsequence_steps (Z.pos n) st H).
  rewrite (discard_subsequence_one_iter n st H).
  rewrite (discard_one_iter (n * 2 ^ 76) st H).
  change (2 ^ 76) with (Z.pos (2 ^ 76)). split; reflexivity.
Qed.

Lemma discard_subsequence_in_steps_witness :
  state_bounds engine_12345 /\
  discard_subsequence 3 engine_12345
  = Pos.iter (discard_subsequence 1) engine_12345 3.
Proof.
  split; [exact engine_12345_bounds|].
  exact (proj1 (discard_subsequence_in_steps 3 engine_12345
                  engine_12345_bounds)).
Defined.

(** X15: the tables [A1p127] and [A2p127] are the arrays [A1] and [A2] of
    [discard_state] squared 127 times, and the tables [A1p67] and [A2p67]
    squared 51 times; from a state within bounds, [discard_sequence(n)] for
    [n >= 1] is [n * 2^51] times [discard_subsequence(1)] and [n * 2^127]
    times [discard(1)]. *)
Theorem discard_sequence_in_steps (n : positive) (st : mrg32k3a_state) :
  state_bounds st ->
  Nat.iter 127 (fun X => mod_mat_sq X M1) A1 = A1p127 /\
  Nat.iter 127 (fun X => mod_mat_sq X M2) A2 = A2p127 /\
  Nat.iter 51 (fun X => mod_mat_sq X M1) A1p67 = A1p127 /\
  Nat.iter 51 (fun X => mod_mat_sq X M2) A2p67 = A2p127 /\
  discard_sequence (Z.pos n) st
    = Pos.iter (discard_subsequence 1) st (n * 2 ^ 51) /\
  discard_sequence (Z.pos n) st = Pos.iter (discard 1) st (n * 2 ^ 127).
Proof.
  intros H.
  do 4 (split; [vm_compute; reflexivity|]).
  rewrite (discard_sequence_steps (Z.pos n) st H).
  rewrite (discard_subsequence_one_iter (n * 2 ^ 51) st H).
  rewrite (discard_one_iter (n * 2 ^ 127) st H).
  rewrite <- Pos.mul_assoc.
  change (2 ^ 51 * 2 ^ 76)%positive with (2 ^ 127)%positive.
  change (2 ^ 127) with (Z.pos (2 ^ 127)). split; reflexivity.
Qed.

Lemma discard_sequence_in_steps_witness :
  state_bounds engine_12345 /\
  discard_sequence 1 engine_12345
  = Pos.iter (discard_subsequence 1) engine_12345 (1 * 2 ^ 51).
Proof.
  split; [exact engine_12345_bounds|].
  exact (proj1 (proj2 (proj2 (proj2 (proj2
    (discard_sequence_in_steps 1 engine_12345 engine_12345_bounds)))))).
Defined.

(** ** The state of six zero words *)

Lemma mod_mat_vec_zero (A : list Z) (m : Z) :
  mod_mat_vec A (0, 0, 0) m = (0, 0, 0).
Proof.
  assert (step : forall a, u64 (u64 (a * 0) + 0) mod m = 0).
  { intros a. rewrite Z.mul_0_r. change (u64 0 + 0) with 0.
    change (u64 0) with 0. apply Zmod_0_l. }
  unfold mod_mat_vec. cbn [fold_left idx3].
  rewrite !step. reflexivity.
Qed.

Lemma jump_pos_zero (p : positive) (B1 B2 : list Z) :
  jump_pos p B1 B2 (0, 0, 0) (0, 0, 0) = ((0, 0, 0), (0, 0, 0)).
Proof.
  revert B1 B2. induction p as [p IH|p IH|]; intros B1 B2; cbn [jump_pos];
    rewrite ?mod_mat_vec_zero; [apply IH | apply IH | reflexivity].
Qed.

Lemma jump_zero_words (n : Z) (B1 B2 : list Z) (st : mrg32k3a_state) :
  zero_words st ->
  (let '(v1, v2) := jump_loop n B1 B2 (g1 st) (g2 st) in set_g st v1 v2) = st.
Proof.
  destruct st as [v1 v2 fs ds f d]. unfold zero_words. cbn [g1 g2].
  intros [-> ->]. destruct n as [|p|p]; cbn [jump_loop]; try reflexivity.
  rewrite jump_pos_zero. reflexivity.
Qed.

Lemma next_zero_words (st : mrg32k3a_state) :
  zero_words st -> next st = (M1, st).
Proof.
  destruct st as [v1 v2 fs ds f d]. unfold zero_words. cbn [g1 g2].
  intros [-> ->]. vm_compute. reflexivity.
Qed.

Lemma seed_aaaa5555_zero_words (subsequence offset : Z) (st : mrg32k3a_state) :
  zero_words (seed 0xAAAAAAAA55555555 subsequence offset st).
Proof.
  unfold seed, restart.
  assert (Z0 : forall s, zero_words s ->
            zero_words (discard_impl offset
                          (discard_subsequence_impl subsequence s))).
  { intros s Hs. unfold discard_impl, discard_state, discard_subsequence_impl.
    rewrite (jump_zero_words subsequence A1p67 A2p67 s Hs).
    now rewrite (jump_zero_words offset A1 A2 s Hs). }
  apply Z0. split; vm_compute; reflexivity.
Qed.

(** X16: the state whose six words are zero is a fixed point: [next]
    returns [M1] and leaves it as it is, and so does every jump.  The seed
    [0xAAAAAAAA55555555], for which both derived values [x] and [y] are 0,
    leads to that state at every subsequence and offset, so every value
    the engine then returns is [M1]. *)
Theorem zero_state_is_fixed_point :
  (forall st, zero_words st ->
     next st = (M1, st) /\
     (forall n, discard n st = st /\ discard_subsequence n st = st /\
                discard_sequence n st = st)) /\
  seed_x 0xAAAAAAAA55555555 = 0 /\ seed_y 0xAAAAAAAA55555555 = 0 /\
  (forall subsequence offset st (k : nat),
     zero_words (seed 0xAAAAAAAA55555555 subsequence offset st) /\
     fst (next (Nat.iter k next_state
                  (seed 0xAAAAAAAA55555555 subsequence offset st))) = M1).
Proof.
  split; [|split; [reflexivity | split; [reflexivity|]]].
  - intros st Hz. split; [now apply next_zero_words|].
    intros n. repeat split; now apply jump_zero_words.
  - intros subsequence offset st k.
    pose proof (seed_aaaa5555_zero_words subsequence offset st) as Hz.
    split; [exact Hz|].
    set (e := seed 0xAAAAAAAA55555555 subsequence offset st) in *.
    assert (E : Nat.iter k next_state e = e).
    { induction k as [|k IH]; [reflexivity|].
      cbn [Nat.iter nat_rect]. fold (Nat.iter k next_state e). rewrite IH.
      unfold next_state. now rewrite (next_zero_words e Hz). }
    rewrite E. now rewrite (next_zero_words e Hz).
Qed.

(** ** Reseeding *)

Lemma jump_words (e : Z) (B1 B2 : list Z) (st : mrg32k3a_state) :
  words (let '(v1, v2) := jump_loop e B1 B2 (g1 st) (g2 st) in set_g st v1 v2)
  = jump_loop e B1 B2 (g1 st) (g2 st).
Proof.
  unfold words. destruct (jump_loop e B1 B2 (g1 st) (g2 st)) as [v1 v2].
  reflexivity.
Qed.

Lemma restart_words (subsequence offset : Z) (a b : mrg32k3a_state) :
  words a = words b ->
  words (restart subsequence offset a) = words (restart subsequence offset b).
Proof.
  intros E. pose proof (f_equal fst E) as E1. pose proof (f_equal snd E) as E2.
  cbn [words fst snd] in E1, E2.
  unfold restart, discard_impl, discard_state.
  rewrite !jump_words.
  cbn [g1 g2 boxmuller_float_state boxmuller_double_state boxmuller_float
       boxmuller_double].
  set (ca := mk_state (g1 a) (g2 a) 0 0 (boxmuller_float a) (boxmuller_double a)).
  set (cb := mk_state (g1 b) (g2 b) 0 0 (boxmuller_float b) (boxmuller_double b)).
  assert (W : words (discard_subsequence_impl subsequence ca)
              = words (discard_subsequence_impl subsequence cb)).
  { unfold discard_subsequence_impl. rewrite !jump_words.
    subst ca cb. cbn [g1 g2]. now rewrite E1, E2. }
  pose proof (f_equal fst W) as W1. pose proof (f_equal snd W) as W2.
  cbn [words fst snd] in W1, W2. now rewrite W1, W2.
Qed.

Lemma next_words (a b : mrg32k3a_state) :
  words a = words b ->
  fst (next a) = fst (next b) /\ words (next_state a) = words (next_state b).
Proof.
  intros E. pose proof (f_equal fst E) as E1. pose proof (f_equal snd E) as E2.
  cbn [words fst snd] in E1, E2.
  unfold next_state, next, words.
  cbn [fst snd g1 g2 set_g]. rewrite E1, E2. split; reflexivity.
Qed.

(** X17: [seed] overwrites all six words and both flags: for the same seed,
    subsequence and offset the words after [seed], and every value that
    [next] returns from then on, are the same whatever the engine held
    before; the two cached normal values are the only fields [seed] leaves
    as they were. *)
Theorem seed_forgets_previous_state
  (seed_value subsequence offset : Z) (st1 st2 : mrg32k3a_state) (k : nat) :
  g1 (seed seed_value subsequence offset st1)
    = g1 (seed seed_value subsequence offset st2) /\
  g2 (seed seed_value subsequence offset st1)
    = g2 (seed seed_value subsequence offset st2) /\
  fst (next (Nat.iter k next_state (seed seed_value subsequence offset st1)))
    = fst (next (Nat.iter k next_state
                   (seed seed_value subsequence offset st2))) /\
  boxmuller_float (seed seed_value subsequence offset st1)
    = boxmuller_float st1 /\
  boxmuller_double (seed seed_value subsequence offset st1)
    = boxmuller_double st1.
Proof.
  assert (W : words (seed seed_value subsequence offset st1)
              = words (seed seed_value subsequence offset st2)).
  { unfold seed. apply restart_words. reflexivity. }
  assert (G : g1 (seed seed_value subsequence offset st1)
                = g1 (seed seed_value subsequence offset st2) /\
              g2 (seed seed_value subsequence offset st1)
                = g2 (seed seed_value subsequence offset st2)).
  { split; [exact (f_equal fst W) | exact (f_equal snd W)]. }
  split; [apply G|]. split; [apply G|]. split.
  - set (e1 := seed seed_value subsequence offset st1) in *.
    set (e2 := seed seed_value subsequence offset st2) in *.
    assert (I : words (Nat.iter k next_state e1)
                = words (Nat.iter k next_state e2)).
    { induction k as [|k IH]; [exact W|].
      cbn [Nat.iter nat_rect]. fold (Nat.iter k next_state e1).
      fold (Nat.iter k next_state e2). now apply next_words. }
    now apply next_words.
  - unfold seed, restart.
    match goal with |- context [discard_impl offset ?t] =>
      fold (discard offset t);
      destruct (discard_cache offset t) as (_ & _ & -> & ->)
    end.
    match goal with |- context [discard_subsequence_impl subsequence ?t] =>
      fold (discard_subsequence subsequence t);
      destruct (discard_subsequence_cache subsequence t) as (_ & _ & -> & ->)
    end.
    split; reflexivity.
Qed.

(** ** The single step of [discard_state()] *)

(** X18: from a state within bounds the overload [discard_state()], that
    is [discard_state(1)], and with it [discard(1)], leaves
    [g1 = (A13 * g1[2] mod M1, (g1[0] + A12 * g1[2]) mod M1, g1[1])] and
    [g2 = (A23 * g2[2] mod M2, g2[0], (g2[1] + A21 * g2[2]) mod M2)]. *)
Theorem discard_state0_words (st : mrg32k3a_state) :
  state_bounds st ->
  discard_state0 st = discard 1 st /\
  g1 (discard_state0 st) =
    ((A13 * idx3 (g1 st) 2) mod M1,
     (idx3 (g1 st) 0 + A12 * idx3 (g1 st) 2) mod M1,
     idx3 (g1 st) 1) /\
  g2 (discard_state0 st) =
    ((A23 * idx3 (g2 st) 2) mod M2,
     idx3 (g2 st) 0,
     (idx3 (g2 st) 1 + A21 * idx3 (g2 st) 2) mod M2).
Proof.
  intros H. split; [reflexivity|].
  change (discard_state0 st) with (discard 1 st).
  rewrite (discard_one_lin st H).
  destruct st as [[[a0 a1] a2] [[b0 b1] b2] fs ds f d].
  unfold state_bounds, in_bounds3 in H. cbn [g1 g2 idx3] in H.
  destruct H as [(Ha0 & Ha1 & Ha2) (Hb0 & Hb1 & Hb2)].
  unfold lin_step, mat_vec, A1, A2. cbn [g1 g2 set_g idx3 nth Nat.add].
  split; (f_equal; [f_equal|]); try (f_equal; ring).
  - replace (0 * a0 + 1 * a1 + 0 * a2) with a1 by ring.
    apply Z.mod_small. exact Ha1.
  - replace (1 * b0 + 0 * b1 + 0 * b2) with b0 by ring.
    apply Z.mod_small. exact Hb0.
Qed.

Lemma discard_state0_words_witness :
  state_bounds engine_12345 /\
  g1 (discard_state0 engine_12345) =
    ((A13 * idx3 (g1 engine_12345) 2) mod M1,
     (idx3 (g1 engine_12345) 0 + A12 * idx3 (g1 engine_12345) 2) mod M1,
     idx3 (g1 engine_12345) 1).
Proof.
  split; [exact engine_12345_bounds|].
  exact (proj1 (proj2 (discard_state0_words engine_12345
                         engine_12345_bounds))).
Defined.
